(** * libJNIPoint.c: the Point structure, its distance function and the
      JNI entry points built on it.

    The C translation unit is embedded shallowly:
    - [int] / [jint] values are mathematical integers kept in the signed
      32-bit range by an explicit two's-complement wrap-around;
    - [double] / [jdouble] values are IEEE 754 binary64 numbers, taken from
      the Standard Library's executable specification [SpecFloat];
    - the unmanaged heap is a byte-addressed finite map, and every entry
      point that dereferences a pointer returns [option]: [None] stands for
      undefined behaviour (an invalid handle, a buffer that is too short). *)

From stdpp Require Import gmap list.
From Stdlib Require Import ZArith Lia.
From Stdlib Require Import Floats.SpecFloat.

Local Open Scope Z_scope.

(** ** The C type [int] (and JNI's [jint]): signed, 32 bits wide

    ISO C gives an [int] operation that overflows no defined result.  The
    operations below take the result two's-complement hardware computes,
    the mathematical one reduced modulo 2^32, which is also how the
    specification reads the overflow of the multiplication. *)

Module CInt.

Definition INT_MIN : Z := - 2 ^ 31.
Definition INT_MAX : Z := 2 ^ 31 - 1.

Definition in_range (z : Z) : Prop := INT_MIN <= z <= INT_MAX.

Definition in_rangeb (z : Z) : bool := (INT_MIN <=? z) && (z <=? INT_MAX).

(** The result of an [int] operation whose mathematical value is [z]:
    reduction modulo 2^32 into the signed range. *)
Definition wrap (z : Z) : Z := (z + 2 ^ 31) mod 2 ^ 32 - 2 ^ 31.

Definition sub (a b : Z) : Z := wrap (a - b).
Definition add (a b : Z) : Z := wrap (a + b).
Definition mul (a b : Z) : Z := wrap (a * b).
Definition neg (a : Z) : Z := wrap (- a).

End CInt.

(** [abs] of <stdlib.h>: the operand itself when it is not negative, its
    [int] negation otherwise. *)
Definition abs (j : Z) : Z := if j <? 0 then CInt.neg j else j.

(** ** The C type [double] (and JNI's [jdouble]): IEEE 754 binary64 *)

Module CDouble.

Definition prec : Z := 53.
Definition emax : Z := 1024.

Definition double : Type := spec_float.

Definition pos_zero : double := S754_zero false.
Definition nan : double := S754_nan.

(** The implicit conversion of an [int] argument to [double]: the integer
    rounded to the nearest binary64 number. *)
Definition of_int (z : Z) : double := binary_normalize prec emax z 0 false.

(** The comparisons [a <= b] and [a == b] of C on doubles. *)
Definition leb (a b : double) : bool := SFleb a b.
Definition eqb (a b : double) : bool := SFeqb a b.

(** The integer a double denotes, when it denotes one. *)
Definition to_Z (d : double) : option Z :=
  match d with
  | S754_zero _ => Some 0
  | S754_finite s m e =>
      let v :=
        if 0 <=? e then Some (Z.pos m * 2 ^ e)
        else if Z.pos m mod 2 ^ (- e) =? 0 then Some (Z.pos m / 2 ^ (- e))
        else None in
      (if s then Z.opp else id) <$> v
  | _ => None
  end.

(** Doubles with a clear sign bit, NaN apart: those [0 <= d] holds of
    because of their sign alone. *)
Definition sign_clear (d : double) : bool :=
  match d with
  | S754_zero s | S754_infinity s | S754_finite s _ _ => negb s
  | S754_nan => false
  end.

(** The double written [5.0]: mantissa [5 * 2^50], exponent [-50]. *)
Definition five : double := S754_finite false 5629499534213120 (-50).

End CDouble.

Notation double := CDouble.double (only parsing).

(** [sqrt] of <math.h>: the correctly rounded square root of IEEE 754. *)
Definition sqrt (d : double) : double := SFsqrt CDouble.prec CDouble.emax d.

(** ** The structure [Point] and the distance function *)

Record Point : Type := { x : Z; y : Z }.

Definition Point_in_range (p : Point) : Prop :=
  CInt.in_range (x p) /\ CInt.in_range (y p).

(** The [int] operand handed to [sqrt] by [distance]. *)
Definition distance_operand (p1 p2 : Point) : Z :=
  let xDist := abs (CInt.sub (x p1) (x p2)) in
  let yDist := abs (CInt.sub (y p1) (y p2)) in
  CInt.add (CInt.mul xDist xDist) (CInt.mul yDist yDist).

Definition distance (p1 p2 : Point) : double :=
  let xDist := abs (CInt.sub (x p1) (x p2)) in
  let yDist := abs (CInt.sub (y p1) (y p2)) in
  sqrt (CDouble.of_int (CInt.add (CInt.mul xDist xDist) (CInt.mul yDist yDist))).

(** The contract as the specification words it:
    sqrt((|x1-x2|)^2 + (|y1-y2|)^2), each absolute difference, each square
    and their sum being a 32-bit signed integer. *)
Module Contract.

(** The signed 32-bit integer congruent to [z] modulo 2^32. *)
Definition int32 (z : Z) : Z :=
  let r := z mod 4294967296 in
  if r <? 2147483648 then r else r - 4294967296.

Definition abs_diff (a b : Z) : Z := int32 (Z.abs (int32 (a - b))).

Definition square (a : Z) : Z := int32 (a ^ 2).

Definition sum_of_squares (x1 y1 x2 y2 : Z) : Z :=
  int32 (square (abs_diff x1 x2) + square (abs_diff y1 y2)).

Definition euclid (x1 y1 x2 y2 : Z) : double :=
  SFsqrt 53 1024 (binary_normalize 53 1024 (sum_of_squares x1 y1 x2 y2) 0 false).

(** What the same formula gives when the integer part is computed
    without any width: no wrap-around before the conversion. *)
Definition exact_euclid (p1 p2 : Point) : double :=
  SFsqrt 53 1024
    (binary_normalize 53 1024 ((x p1 - x p2) ^ 2 + (y p1 - y p2) ^ 2) 0 false).

(** The distance over the integers, without any width: it is [d] when
    [d] is the non-negative root of the exact sum of squares. *)
Definition exact_distance_is (p1 p2 : Point) (d : Z) : Prop :=
  0 <= d /\ d * d = (x p1 - x p2) ^ 2 + (y p1 - y p2) ^ 2.

End Contract.

(** ** The unmanaged heap

    Memory is addressed by bytes.  An address is either inaccessible (not
    in the map), accessible but never written ([Undef], as a block is just
    after [malloc]; reading it has no defined result), or holds a byte.  [blocks] records the base address
    and size of every block handed out by [malloc] and not yet freed;
    memory owned by the caller (a direct buffer) is accessible without
    being a block. *)

Inductive endianness : Type := LittleEndian | BigEndian.

Inductive memval : Type := Undef | Byte (b : Z).

Record mem : Type := { contents : gmap Z memval; blocks : gmap Z Z }.

Definition empty_mem : mem := {| contents := ∅; blocks := ∅ |}.

Definition load_byte (m : mem) (a : Z) : option Z :=
  match contents m !! a with
  | Some (Byte b) => Some b
  | _ => None
  end.

Definition store_byte (m : mem) (a : Z) (b : Z) : option mem :=
  match contents m !! a with
  | Some _ => Some {| contents := <[a := Byte b]> (contents m); blocks := blocks m |}
  | None => None
  end.

Fixpoint load_bytes (m : mem) (a : Z) (n : nat) : option (list Z) :=
  match n with
  | O => Some []
  | S n' => b ← load_byte m a; bs ← load_bytes m (a + 1) n'; Some (b :: bs)
  end.

Fixpoint store_bytes (m : mem) (a : Z) (bs : list Z) : option mem :=
  match bs with
  | [] => Some m
  | b :: bs' => m' ← store_byte m a b; store_bytes m' (a + 1) bs'
  end.

(** The four bytes of an [int], in memory order. *)
Definition encode_int (e : endianness) (v : Z) : list Z :=
  let u := v mod 2 ^ 32 in
  let le := [u mod 256; (u / 2 ^ 8) mod 256; (u / 2 ^ 16) mod 256; (u / 2 ^ 24) mod 256] in
  match e with
  | LittleEndian => le
  | BigEndian => rev le
  end.

Definition decode_int (e : endianness) (bs : list Z) : Z :=
  let le := match e with LittleEndian => bs | BigEndian => rev bs end in
  CInt.wrap (foldr (fun b acc => b + 256 * acc) 0 le).

(** The layout of [Point]: two [int]s of 4 bytes, without padding. *)
Definition sizeof_Point : Z := 8.
Definition offsetof_x : Z := 0.
Definition offsetof_y : Z := 4.

(** [malloc] and [free] of <stdlib.h>.  Which address the allocator hands
    out is its own business: it is the argument [choice], [0] being the
    null pointer of a failed allocation.  A choice the allocator cannot
    make (memory already accessible, or outside the 64-bit address space)
    gives no result at all. *)
Definition range_fresh (m : mem) (p n : Z) : bool :=
  forallb (fun i => bool_decide (contents m !! (p + i) = None)) (seqZ 0 n).

Definition malloc (m : mem) (n : Z) (choice : Z) : option (Z * mem) :=
  if choice =? 0 then Some (0, m)
  else if (0 <? choice) && (choice + n <=? 2 ^ 64) && range_fresh m choice n
  then Some (choice,
             {| contents := foldr (fun i c => <[choice + i := Undef]> c) (contents m) (seqZ 0 n);
                blocks := <[choice := n]> (blocks m) |})
  else None.

Definition free (m : mem) (p : Z) : option mem :=
  if p =? 0 then Some m
  else match blocks m !! p with
       | Some n =>
           Some {| contents := foldr (fun i c => delete (p + i) c) (contents m) (seqZ 0 n);
                   blocks := delete p (blocks m) |}
       | None => None
       end.

(** The casts between [Point*] and [jlong] on a 64-bit platform. *)
Definition jlong_of_ptr (p : Z) : Z := (p + 2 ^ 63) mod 2 ^ 64 - 2 ^ 63.
Definition ptr_of_jlong (h : Z) : Z := h mod 2 ^ 64.

Definition jlong_in_range (h : Z) : Prop := - 2 ^ 63 <= h < 2 ^ 63.

(** A [jobject] as far as this file looks at it: a direct byte buffer over
    caller-owned memory, or any other object. *)
Inductive jobject : Type :=
  | DirectByteBuffer (address capacity : Z)
  | OtherObject.

(** JNI's [GetDirectBufferAddress]: the start of the buffer's memory, the
    null pointer for an object that is no direct buffer. *)
Definition GetDirectBufferAddress (buf : jobject) : Z :=
  match buf with
  | DirectByteBuffer a _ => a
  | OtherObject => 0
  end.

Section Platform.

Variable endian : endianness.

Definition load_int (m : mem) (a : Z) : option Z :=
  decode_int endian <$> load_bytes m a 4.

Definition store_int (m : mem) (a : Z) (v : Z) : option mem :=
  store_bytes m a (encode_int endian v).

(** Reading a whole structure through a pointer, as [*p1] does. *)
Definition load_Point (m : mem) (p : Z) : option Point :=
  vx ← load_int m (p + offsetof_x);
  vy ← load_int m (p + offsetof_y);
  Some {| x := vx; y := vy |}.

Definition distance_ptrs (m : mem) (p1 p2 : Z) : option double :=
  v1 ← load_Point m p1;
  v2 ← load_Point m p2;
  Some (distance v1 v2).

Definition Java_org_openjdk_bench_jdk_incubator_foreign_points_support_JNIPoint_allocate
    (m : mem) (choice : Z) : option (Z * mem) :=
  '(p, m') ← malloc m sizeof_Point choice;
  Some (jlong_of_ptr p, m').

Definition Java_org_openjdk_bench_jdk_incubator_foreign_points_support_JNIPoint_free
    (m : mem) (thisPoint : Z) : option mem :=
  free m (ptr_of_jlong thisPoint).

Definition Java_org_openjdk_bench_jdk_incubator_foreign_points_support_JNIPoint_getX
    (m : mem) (thisPoint : Z) : option Z :=
  let point := ptr_of_jlong thisPoint in
  load_int m (point + offsetof_x).

Definition Java_org_openjdk_bench_jdk_incubator_foreign_points_support_JNIPoint_setX
    (m : mem) (thisPoint : Z) (value : Z) : option mem :=
  let point := ptr_of_jlong thisPoint in
  store_int m (point + offsetof_x) value.

Definition Java_org_openjdk_bench_jdk_incubator_foreign_points_support_JNIPoint_getY
    (m : mem) (thisPoint : Z) : option Z :=
  let point := ptr_of_jlong thisPoint in
  load_int m (point + offsetof_y).

Definition Java_org_openjdk_bench_jdk_incubator_foreign_points_support_JNIPoint_setY
    (m : mem) (thisPoint : Z) (value : Z) : option mem :=
  let point := ptr_of_jlong thisPoint in
  store_int m (point + offsetof_y) value.

Definition Java_org_openjdk_bench_jdk_incubator_foreign_points_support_JNIPoint_distance
    (m : mem) (thisPoint other : Z) : option double :=
  let p1 := ptr_of_jlong thisPoint in
  let p2 := ptr_of_jlong other in
  v1 ← load_Point m p1;
  v2 ← load_Point m p2;
  Some (distance v1 v2).

Definition Java_org_openjdk_bench_jdk_incubator_foreign_points_support_BBPoint_distance
    (m : mem) (buffP1 buffP2 : jobject) : option double :=
  let p1 := GetDirectBufferAddress buffP1 in
  let p2 := GetDirectBufferAddress buffP2 in
  v1 ← load_Point m p1;
  v2 ← load_Point m p2;
  Some (distance v1 v2).

End Platform.

(** Short names for the entry points of class JNIPoint and BBPoint. *)
Notation JNIPoint_allocate :=
  Java_org_openjdk_bench_jdk_incubator_foreign_points_support_JNIPoint_allocate.
Notation JNIPoint_free :=
  Java_org_openjdk_bench_jdk_incubator_foreign_points_support_JNIPoint_free.
Notation JNIPoint_getX :=
  Java_org_openjdk_bench_jdk_incubator_foreign_points_support_JNIPoint_getX.
Notation JNIPoint_setX :=
  Java_org_openjdk_bench_jdk_incubator_foreign_points_support_JNIPoint_setX.
Notation JNIPoint_getY :=
  Java_org_openjdk_bench_jdk_incubator_foreign_points_support_JNIPoint_getY.
Notation JNIPoint_setY :=
  Java_org_openjdk_bench_jdk_incubator_foreign_points_support_JNIPoint_setY.
Notation JNIPoint_distance :=
  Java_org_openjdk_bench_jdk_incubator_foreign_points_support_JNIPoint_distance.
Notation BBPoint_distance :=
  Java_org_openjdk_bench_jdk_incubator_foreign_points_support_BBPoint_distance.

(** ** Predicates on memory states *)

(** The [n] bytes from address [a] on may be read and written. *)
Definition accessible (m : mem) (a n : Z) : Prop :=
  forall i, 0 <= i < n -> is_Some (contents m !! (a + i)).

(** Caller-owned memory: the bytes [bs] laid out from address [a] on, as
    the host runtime does for a direct buffer it hands to native code. *)
Fixpoint write_bytes (a : Z) (bs : list Z) (c : gmap Z memval) : gmap Z memval :=
  match bs with
  | [] => c
  | b :: bs' => <[a := Byte b]> (write_bytes (a + 1) bs' c)
  end.

Definition with_bytes (a : Z) (bs : list Z) (m : mem) : mem :=
  {| contents := write_bytes a bs (contents m); blocks := blocks m |}.

(** No block sits at the null address, every live block is accessible
    over its whole size, and two live blocks share no address. *)
Record wf_mem (m : mem) : Prop := {
  wf_nonnull : blocks m !! 0 = None;
  wf_accessible : forall b n, blocks m !! b = Some n -> accessible m b n;
  wf_disjoint : forall b1 n1 b2 n2 i1 i2,
    blocks m !! b1 = Some n1 -> blocks m !! b2 = Some n2 -> b1 <> b2 ->
    0 <= i1 < n1 -> 0 <= i2 < n2 -> b1 + i1 <> b2 + i2
}.

(** The same, as a check that runs. *)
Definition wf_memb (m : mem) : bool :=
  let bl := map_to_list (blocks m) in
  bool_decide (blocks m !! 0 = None) &&
  forallb (fun bn : Z * Z =>
             forallb (fun i => bool_decide (is_Some (contents m !! (bn.1 + i))))
                     (seqZ 0 bn.2)) bl &&
  forallb (fun bn1 : Z * Z =>
             forallb (fun bn2 : Z * Z =>
                        (bn1.1 =? bn2.1) || (bn1.1 + bn1.2 <=? bn2.1) ||
                        (bn2.1 + bn2.2 <=? bn1.1)) bl) bl.

(** [h] is the handle of a Point that [allocate] returned and [free] has
    not been given yet. *)
Definition live_handle (m : mem) (h : Z) : Prop :=
  blocks m !! ptr_of_jlong h = Some sizeof_Point.

(** The 8 bytes at address [a] are the two fields of [p], [x] first,
    each in the byte order of the platform. *)
Definition Point_at (e : endianness) (m : mem) (a : Z) (p : Point) : Prop :=
  load_bytes m a 8 = Some (encode_int e (x p) ++ encode_int e (y p)).

(** The buffer [buf] spans at least the 8 bytes of a Point and starts
    with the encoding of [p]. *)
Definition buffer_encodes (e : endianness) (m : mem) (buf : jobject) (p : Point) : Prop :=
  match buf with
  | DirectByteBuffer a c => sizeof_Point <= c /\ Point_at e m a p
  | OtherObject => False
  end.

(** The live handle [h] designates a Point with the fields of [p]. *)
Definition handle_holds (e : endianness) (m : mem) (h : Z) (p : Point) : Prop :=
  live_handle m h /\ Point_at e m (ptr_of_jlong h) p.

(** The handle [h] designates nothing any more: no block, no field to
    read. *)
Definition retired (e : endianness) (m : mem) (h : Z) : Prop :=
  ~ live_handle m h /\ JNIPoint_getX e m h = None /\ JNIPoint_getY e m h = None.

(** ** A run of the entry points

    Two Points are allocated and given the fields (1,1) and (4,5); the
    host then lays out two direct buffers with the same fields, the second
    one longer than a Point. *)

Definition scenario (e : endianness) : option (Z * Z * mem) :=
  '(h1, m) ← JNIPoint_allocate empty_mem 4096;
  m ← JNIPoint_setX e m h1 1;
  m ← JNIPoint_setY e m h1 1;
  '(h2, m) ← JNIPoint_allocate m 8192;
  m ← JNIPoint_setX e m h2 4;
  m ← JNIPoint_setY e m h2 5;
  Some (h1, h2,
        with_bytes 256 (encode_int e 1 ++ encode_int e 1)
          (with_bytes 512 (encode_int e 4 ++ encode_int e 5 ++ [0; 0]) m)).

Definition scenario_mem (e : endianness) : mem :=
  default empty_mem (snd <$> scenario e).

Definition scenario_P1 : Point := {| x := 1; y := 1 |}.
Definition scenario_P2 : Point := {| x := 4; y := 5 |}.

Definition scenario_buffer1 : jobject := DirectByteBuffer 256 8.
Definition scenario_buffer2 : jobject := DirectByteBuffer 512 10.

(** The memory an entry point leaves behind, the one it was given when it
    has no defined result. *)
Definition mem_after (m : mem) (r : option mem) : mem := default m r.

(** ** What can happen to the heap

    One step is a call of an entry point that changes the memory, with a
    defined result, or the host runtime writing bytes of its own (the
    contents of a direct buffer) somewhere. *)

Inductive entry_step (e : endianness) (m : mem) : mem -> Prop :=
  | step_allocate choice h m' :
      JNIPoint_allocate m choice = Some (h, m') -> entry_step e m m'
  | step_free h m' :
      JNIPoint_free m h = Some m' -> entry_step e m m'
  | step_setX h v m' :
      JNIPoint_setX e m h v = Some m' -> entry_step e m m'
  | step_setY h v m' :
      JNIPoint_setY e m h v = Some m' -> entry_step e m m'
  | step_host a bs :
      entry_step e m (with_bytes a bs m).

(** The memories a run of the library can be in, from the empty heap. *)
Definition reachable (e : endianness) (m : mem) : Prop :=
  rtc (entry_step e) empty_mem m.

(** * Facts *)

(** ** Wrap-around arithmetic *)

Module CIntFacts.
Import CInt.

Ltac unfold_int :=
  unfold abs, neg, sub, add, mul, wrap, in_range, INT_MIN, INT_MAX,
    Contract.int32 in *.

Ltac solve_wrap := unfold_int; Z.div_mod_to_equations; lia.

Lemma wrap_in_range z : in_range (wrap z).
Proof. solve_wrap. Qed.

Lemma wrap_small z : in_range z -> wrap z = z.
Proof. solve_wrap. Qed.

Lemma wrap_congr a b : a mod 2 ^ 32 = b mod 2 ^ 32 -> wrap a = wrap b.
Proof. solve_wrap. Qed.

Lemma wrap_mod z : wrap z mod 2 ^ 32 = z mod 2 ^ 32.
Proof. solve_wrap. Qed.

Lemma in_rangeb_spec z : in_rangeb z = true <-> in_range z.
Proof. unfold in_rangeb, in_range. rewrite andb_true_iff, !Z.leb_le. tauto. Qed.

(** The specification's reading of a 32-bit integer is the same wrap. *)
Lemma int32_wrap z : Contract.int32 z = wrap z.
Proof.
  unfold Contract.int32.
  destruct (Z.ltb_spec (z mod 4294967296) 2147483648); solve_wrap.
Qed.

(** [abs] is the mathematical absolute value, wrapped: the two differ
    for [INT_MIN] alone, whose [abs] is [INT_MIN]. *)
Lemma abs_wrap_Zabs j : in_range j -> abs j = wrap (Z.abs j).
Proof. intros Hj. unfold abs. destruct (Z.ltb_spec j 0); solve_wrap. Qed.

Lemma abs_INT_MIN : abs INT_MIN = INT_MIN.
Proof. reflexivity. Qed.

Lemma abs_nonneg j : in_range j -> j <> INT_MIN -> 0 <= abs j.
Proof. intros Hj Hmin. unfold abs. destruct (Z.ltb_spec j 0); solve_wrap. Qed.

Lemma abs_sub_sym a b : abs (sub a b) = abs (sub b a).
Proof.
  unfold abs.
  destruct (Z.ltb_spec (sub a b) 0), (Z.ltb_spec (sub b a) 0); solve_wrap.
Qed.

Lemma sub_diag a : sub a a = 0.
Proof. unfold sub. rewrite Z.sub_diag. reflexivity. Qed.

End CIntFacts.

(** ** Binary64 conversion and square root *)

Module CDoubleFacts.
Import CDouble.

Lemma digits2_pos_size m : digits2_pos m = Pos.size m.
Proof. induction m as [m IH | m IH |]; simpl; congruence. Qed.

Lemma digits2_pos_iter_xO m k :
  Z.pos (digits2_pos (Pos.iter xO m k)) = Z.pos (digits2_pos m) + Z.pos k.
Proof.
  induction k as [| k IH] using Pos.peano_ind.
  - simpl. lia.
  - rewrite Pos.iter_succ. simpl. lia.
Qed.

Lemma Zpos_iter_xO m k : Z.pos (Pos.iter xO m k) = Z.pos m * 2 ^ Z.pos k.
Proof.
  induction k as [| k IH] using Pos.peano_ind.
  - simpl. lia.
  - rewrite Pos.iter_succ, Pos2Z.inj_xO, IH, Pos2Z.inj_succ, Z.pow_succ_r by lia. lia.
Qed.

Lemma digits2_pos_bound m n : 0 <= n -> Z.pos m < 2 ^ n -> Z.pos (digits2_pos m) <= n.
Proof.
  rewrite digits2_pos_size. intros Hn Hm.
  destruct (Z.le_gt_cases (Z.pos (Pos.size m)) n) as [|Hgt]; [done|exfalso].
  pose proof (Pos.size_le m) as Hle.
  assert (2 ^ (n + 1) <= 2 ^ Z.pos (Pos.size m)) by (apply Z.pow_le_mono_r; lia).
  rewrite Z.pow_add_r in * by lia.
  assert (Z.pos (2 ^ Pos.size m) = 2 ^ Z.pos (Pos.size m)) as E by (rewrite Pos2Z.inj_pow; done).
  lia.
Qed.

(** A positive integer of at most 52 bits converts without rounding:
    the mantissa is the integer shifted up to 53 bits. *)
Lemma binary_round_small s m :
  Z.pos (digits2_pos m) <= 52 ->
  binary_round prec emax s m 0 =
  S754_finite s (Pos.iter xO m (Z.to_pos (53 - Z.pos (digits2_pos m))))
              (Z.pos (digits2_pos m) - 53).
Proof.
  intros Hd. set (d := Z.pos (digits2_pos m)) in *.
  assert (1 <= d) by (unfold d; lia).
  unfold binary_round, shl_align. fold d.
  assert (fexp prec emax (d + 0) = d - 53) as -> by (unfold fexp, emin, prec, emax; lia).
  destruct (d - 53 - 0) as [| q | q] eqn:Hq; try lia.
  assert (Z.to_pos (53 - d) = q) as -> by lia.
  unfold binary_round_aux, shr_fexp, Zdigits2.
  rewrite digits2_pos_iter_xO. fold d.
  assert (fexp prec emax (d + Z.pos q + (d - 53)) - (d - 53) = 0) as ->
    by (unfold fexp, emin, prec, emax; lia).
  cbn [shr shr_record_of_loc shr_m loc_of_shr_record round_nearest_even Zdigits2].
  rewrite digits2_pos_iter_xO. fold d.
  assert (fexp prec emax (d + Z.pos q + (d - 53)) - (d - 53) = 0) as ->
    by (unfold fexp, emin, prec, emax; lia).
  cbn [shr shr_m].
  destruct (Z.leb_spec (d - 53) (emax - prec)) as [|Hgt]; [done|].
  unfold emax, prec in Hgt. lia.
Qed.

(** The conversion of an [int] is exact, and keeps the sign. *)
Lemma of_int_pos m :
  Z.pos m <= 2 ^ 31 ->
  of_int (Z.pos m) =
  S754_finite false (Pos.iter xO m (Z.to_pos (53 - Z.pos (digits2_pos m))))
              (Z.pos (digits2_pos m) - 53).
Proof.
  intros Hm. apply binary_round_small.
  transitivity 32; [|lia]. apply digits2_pos_bound; lia.
Qed.

Lemma of_int_neg m :
  Z.pos m <= 2 ^ 31 ->
  of_int (Z.neg m) =
  S754_finite true (Pos.iter xO m (Z.to_pos (53 - Z.pos (digits2_pos m))))
              (Z.pos (digits2_pos m) - 53).
Proof.
  intros Hm. apply binary_round_small.
  transitivity 32; [|lia]. apply digits2_pos_bound; lia.
Qed.

Lemma to_Z_shifted s m k :
  to_Z (S754_finite s (Pos.iter xO m k) (- Z.pos k)) =
  Some (if s then - Z.pos m else Z.pos m).
Proof.
  unfold to_Z. rewrite Zpos_iter_xO.
  destruct (Z.leb_spec 0 (- Z.pos k)) as [|_]; [lia|].
  rewrite Z.opp_involutive.
  assert (0 < 2 ^ Z.pos k) by (apply Z.pow_pos_nonneg; lia).
  rewrite Z.mod_mul, Z.eqb_refl, Z.div_mul by lia.
  destruct s; reflexivity.
Qed.

Lemma to_Z_of_int z : CInt.in_range z -> to_Z (of_int z) = Some z.
Proof.
  unfold CInt.in_range, CInt.INT_MIN, CInt.INT_MAX. intros Hz.
  destruct z as [| m | m].
  - reflexivity.
  - rewrite of_int_pos by lia.
    assert (Z.pos (digits2_pos m) <= 32) by (apply digits2_pos_bound; lia).
    replace (Z.pos (digits2_pos m) - 53)
      with (- Z.pos (Z.to_pos (53 - Z.pos (digits2_pos m)))) by lia.
    apply to_Z_shifted.
  - rewrite of_int_neg by lia.
    assert (Z.pos (digits2_pos m) <= 32) by (apply digits2_pos_bound; lia).
    replace (Z.pos (digits2_pos m) - 53)
      with (- Z.pos (Z.to_pos (53 - Z.pos (digits2_pos m)))) by lia.
    apply to_Z_shifted.
Qed.

Lemma leb_zero_sign_clear d : sign_clear d = true -> leb pos_zero d = true.
Proof. destruct d as [[]|[]| |[] ? ?]; simpl; done. Qed.

Lemma shr_1_nonneg mrs : 0 <= shr_m mrs -> 0 <= shr_m (shr_1 mrs).
Proof. destruct mrs as [[|[p|p|]|p] r t]; simpl; lia. Qed.

Lemma iter_pos_shr_1_nonneg p mrs :
  0 <= shr_m mrs -> 0 <= shr_m (iter_pos shr_1 p mrs).
Proof.
  revert mrs. induction p as [p IH | p IH |]; intros mrs Hm; simpl.
  - apply IH, IH, shr_1_nonneg, Hm.
  - apply IH, IH, Hm.
  - apply shr_1_nonneg, Hm.
Qed.

Lemma shr_fexp_nonneg m e l :
  0 <= m -> 0 <= shr_m (fst (shr_fexp prec emax m e l)).
Proof.
  intros Hm. unfold shr_fexp, shr.
  assert (0 <= shr_m (shr_record_of_loc m l)) by (destruct l as [|[]]; simpl; lia).
  destruct (fexp prec emax (Zdigits2 m + e) - e); simpl; try done.
  by apply iter_pos_shr_1_nonneg.
Qed.

Lemma round_nearest_even_nonneg m l : 0 <= m -> 0 <= round_nearest_even m l.
Proof.
  intros Hm. destruct l as [|[]]; simpl; try lia.
  destruct (Z.even m); lia.
Qed.

Lemma binary_round_aux_sign_clear m e l :
  0 <= m -> sign_clear (binary_round_aux prec emax false m e l) = true.
Proof.
  intros Hm. unfold binary_round_aux.
  pose proof (shr_fexp_nonneg m e l Hm) as H1.
  destruct (shr_fexp prec emax m e l) as [mrs' e'] eqn:E1. simpl in H1.
  pose proof (shr_fexp_nonneg _ e' loc_Exact
                (round_nearest_even_nonneg _ (loc_of_shr_record mrs') H1)) as H2.
  destruct (shr_fexp prec emax _ e' loc_Exact) as [mrs'' e''] eqn:E2. simpl in H2.
  destruct (shr_m mrs'') as [| q | q]; try lia; [done|].
  by destruct (e'' <=? emax - prec).
Qed.

Lemma sqrtrem_fst_nonneg n : 0 <= fst (Z.sqrtrem n).
Proof.
  destruct n as [| p | p]; simpl; try lia.
  destruct (Pos.sqrtrem p) as [q [| r |]]; simpl; lia.
Qed.

Lemma SFsqrt_sign_clear d :
  sign_clear d = true -> sign_clear (SFsqrt prec emax d) = true.
Proof.
  destruct d as [[]|[]| |[] m e]; simpl; try done. intros _.
  unfold SFsqrt_core_binary.
  match goal with |- context [Z.sqrtrem ?n] =>
    pose proof (sqrtrem_fst_nonneg n) as Hq; destruct (Z.sqrtrem n) as [q r] end.
  simpl in Hq. by apply binary_round_aux_sign_clear.
Qed.

Lemma of_int_sign_clear z :
  CInt.in_range z -> 0 <= z -> sign_clear (of_int z) = true.
Proof.
  unfold CInt.in_range, CInt.INT_MIN, CInt.INT_MAX. intros Hz Hnn.
  destruct z as [| m | m]; [done| |lia].
  rewrite of_int_pos by lia. done.
Qed.

Lemma SFsqrt_of_int_negative z :
  CInt.in_range z -> z < 0 -> SFsqrt prec emax (of_int z) = nan.
Proof.
  unfold CInt.in_range, CInt.INT_MIN, CInt.INT_MAX. intros Hz Hneg.
  destruct z as [| m | m]; [lia|lia|].
  rewrite of_int_neg by lia. done.
Qed.
(** [==] relates every double but NaN to itself. *)
Lemma eqb_refl d : d <> nan -> eqb d d = true.
Proof.
  destruct d as [[]|[]| |[] m e]; try done; intros _; unfold eqb, SFeqb; simpl;
    by rewrite Z.compare_refl, Pos.compare_cont_refl.
Qed.

Lemma sign_clear_not_nan d : sign_clear d = true -> d <> nan.
Proof. by destruct d. Qed.

End CDoubleFacts.

(** ** Bytes in memory *)

Section Bytes.

Implicit Types (m : mem) (a : Z) (bs : list Z).

Lemma store_byte_Some m a b m' :
  store_byte m a b = Some m' ->
  is_Some (contents m !! a) /\
  contents m' = <[a := Byte b]> (contents m) /\ blocks m' = blocks m.
Proof.
  unfold store_byte. destruct (contents m !! a) eqn:E; [|done].
  intros [= <-]. eauto.
Qed.

Lemma store_byte_accessible m a b :
  is_Some (contents m !! a) -> is_Some (store_byte m a b).
Proof. unfold store_byte. intros [v ->]. eauto. Qed.

Lemma store_bytes_blocks bs : forall m a m',
  store_bytes m a bs = Some m' -> blocks m' = blocks m.
Proof.
  induction bs as [| b bs IH]; intros m a m'; simpl.
  - by intros [= <-].
  - destruct (store_byte m a b) as [m1|] eqn:E; simpl; [|done].
    intros H. apply IH in H. apply store_byte_Some in E as (_ & _ & Hb).
    congruence.
Qed.

(** A store changes the bytes it writes and nothing else. *)
Lemma store_bytes_other bs : forall m a m' a',
  store_bytes m a bs = Some m' ->
  a' < a \/ a + Z.of_nat (length bs) <= a' ->
  contents m' !! a' = contents m !! a'.
Proof.
  induction bs as [| b bs IH]; intros m a m' a'; simpl.
  - by intros [= <-].
  - destruct (store_byte m a b) as [m1|] eqn:E; simpl; [|done].
    intros H Ha'. rewrite (IH _ _ _ a' H) by lia.
    apply store_byte_Some in E as (_ & -> & _).
    apply lookup_insert_ne. lia.
Qed.

Lemma store_bytes_accessible_iff bs : forall m a m' a',
  store_bytes m a bs = Some m' ->
  is_Some (contents m' !! a') <-> is_Some (contents m !! a').
Proof.
  induction bs as [| b bs IH]; intros m a m' a'; simpl.
  - by intros [= <-].
  - destruct (store_byte m a b) as [m1|] eqn:E; simpl; [|done].
    intros H. rewrite (IH _ _ _ a' H).
    apply store_byte_Some in E as (Hacc & -> & _).
    destruct (decide (a = a')) as [<-|Hne].
    + rewrite lookup_insert_eq. split; eauto.
    + by rewrite lookup_insert_ne.
Qed.

Lemma store_bytes_succeeds bs : forall m a,
  (forall i, 0 <= i < Z.of_nat (length bs) -> is_Some (contents m !! (a + i))) ->
  is_Some (store_bytes m a bs).
Proof.
  induction bs as [| b bs IH]; intros m a Hacc; simpl; [eauto|].
  destruct (store_byte_accessible m a b) as [m1 E].
  { specialize (Hacc 0). rewrite Z.add_0_r in Hacc. apply Hacc. simpl. lia. }
  rewrite E. simpl. apply IH. intros i Hi.
  apply store_byte_Some in E as (_ & -> & _).
  rewrite lookup_insert_ne by lia.
  replace (a + 1 + i) with (a + (i + 1)) by lia. apply Hacc. simpl. lia.
Qed.

Lemma load_bytes_ext n : forall m m' a,
  (forall i, 0 <= i < Z.of_nat n -> contents m' !! (a + i) = contents m !! (a + i)) ->
  load_bytes m' a n = load_bytes m a n.
Proof.
  induction n as [| n IH]; intros m m' a Hsame; simpl; [done|].
  unfold load_byte.
  specialize (Hsame 0) as H0. rewrite Z.add_0_r in H0. rewrite H0 by lia.
  rewrite (IH m m' (a + 1)); [done|].
  intros i Hi. replace (a + 1 + i) with (a + (i + 1)) by lia. apply Hsame. lia.
Qed.

Lemma load_store_bytes_same bs : forall m a m',
  store_bytes m a bs = Some m' -> load_bytes m' a (length bs) = Some bs.
Proof.
  induction bs as [| b bs IH]; intros m a m'; simpl; [done|].
  destruct (store_byte m a b) as [m1|] eqn:E; simpl; [|done].
  intros H. unfold load_byte.
  rewrite (store_bytes_other _ _ _ _ a H) by lia.
  apply store_byte_Some in E as (_ & -> & _).
  rewrite lookup_insert_eq. simpl.
  by rewrite (IH _ _ _ H).
Qed.

Lemma load_bytes_add n1 n2 : forall m a,
  load_bytes m a (n1 + n2) =
  l1 ← load_bytes m a n1; l2 ← load_bytes m (a + Z.of_nat n1) n2; Some (l1 ++ l2).
Proof.
  induction n1 as [| n1 IH]; intros m a.
  - simpl. rewrite Z.add_0_r. by destruct (load_bytes m a n2).
  - cbn [Nat.add load_bytes]. destruct (load_byte m a) as [b|]; simpl; [|done].
    rewrite IH. replace (a + 1 + Z.of_nat n1) with (a + Z.of_nat (S n1)) by lia.
    destruct (load_bytes m (a + 1) n1) as [l1|]; simpl; [|done].
    by destruct (load_bytes m (a + Z.of_nat (S n1)) n2).
Qed.

Lemma load_bytes_length n : forall m a l,
  load_bytes m a n = Some l -> length l = n.
Proof.
  induction n as [| n IH]; intros m a l; simpl.
  - by intros [= <-].
  - destruct (load_byte m a); simpl; [|done].
    destruct (load_bytes m (a + 1) n) as [l'|] eqn:E; simpl; [|done].
    intros [= <-]. simpl. f_equal. eauto.
Qed.

Lemma load_bytes_accessible n : forall m a l i,
  load_bytes m a n = Some l -> 0 <= i < Z.of_nat n ->
  is_Some (contents m !! (a + i)).
Proof.
  induction n as [| n IH]; intros m a l i; simpl; [lia|].
  unfold load_byte at 1. destruct (contents m !! a) as [[|b]|] eqn:Ea; simpl; try done.
  destruct (load_bytes m (a + 1) n) as [l'|] eqn:E; simpl; [|done].
  intros _ Hi. destruct (decide (i = 0)) as [->|Hne].
  - rewrite Z.add_0_r, Ea. eauto.
  - replace (a + i) with (a + 1 + (i - 1)) by lia. apply (IH _ _ _ _ E). lia.
Qed.

End Bytes.

(** ** The encoding of an [int] *)

Section Encoding.

Variable e : endianness.

Lemma encode_int_length v : length (encode_int e v) = 4%nat.
Proof. by destruct e. Qed.

Lemma decode_encode_int v : CInt.in_range v -> decode_int e (encode_int e v) = v.
Proof.
  intros Hv. unfold decode_int, encode_int.
  assert (forall l, match e with LittleEndian => match e with LittleEndian => l | BigEndian => rev l end
                              | BigEndian => rev match e with LittleEndian => l | BigEndian => rev l end end = l) as ->.
  { intros l. destruct e; [done|apply rev_involutive]. }
  cbn [foldr].
  assert (forall u, 0 <= u < 2 ^ 32 ->
    u mod 256 + 256 * (u / 2 ^ 8 mod 256 + 256 * (u / 2 ^ 16 mod 256 + 256 * (u / 2 ^ 24 mod 256 + 256 * 0))) = u) as ->.
  { intros u Hu. Z.div_mod_to_equations. lia. }
  - CIntFacts.solve_wrap.
  - apply Z.mod_pos_bound. lia.
Qed.

End Encoding.

(** ** Loads and stores of an [int] *)

Section IntAccess.

Variable e : endianness.

Lemma load_store_int_same m a v m' :
  CInt.in_range v -> store_int e m a v = Some m' -> load_int e m' a = Some v.
Proof.
  unfold store_int, load_int. intros Hv H.
  apply load_store_bytes_same in H. rewrite encode_int_length in H.
  rewrite H. simpl. by rewrite decode_encode_int.
Qed.

Lemma load_store_int_other m a v m' a' :
  store_int e m a v = Some m' -> a' + 4 <= a \/ a + 4 <= a' ->
  load_int e m' a' = load_int e m a'.
Proof.
  unfold store_int, load_int. intros H Hd. f_equal.
  apply load_bytes_ext. intros i Hi.
  apply (store_bytes_other _ _ _ _ _ H). rewrite encode_int_length. lia.
Qed.

Lemma store_int_succeeds m a v :
  accessible m a 4 -> is_Some (store_int e m a v).
Proof.
  intros Hacc. apply store_bytes_succeeds. by rewrite encode_int_length.
Qed.

Lemma load_int_inaccessible m a : contents m !! a = None -> load_int e m a = None.
Proof. unfold load_int. simpl. unfold load_byte. by intros ->. Qed.

(** Where the 8 bytes of a Point are laid out in memory, the structure
    read through the pointer is that Point. *)
Lemma load_Point_at m a p :
  Point_in_range p -> Point_at e m a p -> load_Point e m a = Some p.
Proof.
  intros [Hx Hy]. unfold Point_at. change 8%nat with (4 + 4)%nat.
  rewrite load_bytes_add. change (Z.of_nat 4) with 4.
  destruct (load_bytes m a 4) as [l1|] eqn:E1,
           (load_bytes m (a + 4) 4) as [l2|] eqn:E2; simpl; try done.
  intros [= H]. apply app_inj_1 in H as [-> ->].
  2:{ rewrite encode_int_length. eapply load_bytes_length, E1. }
  unfold load_Point, load_int, offsetof_x, offsetof_y.
  rewrite Z.add_0_r, E1, E2. simpl.
  rewrite !decode_encode_int by done. by destruct p.
Qed.

End IntAccess.

(** ** Allocation *)

Section Allocation.

Lemma lookup_foldr_insert (p : Z) (v : memval) (c : gmap Z memval) (l : list Z) (a : Z) :
  foldr (fun i c => <[p + i := v]> c) c l !! a =
  if decide (a - p ∈ l) then Some v else c !! a.
Proof.
  revert a. induction l as [| i l IH]; intros a; cbn [foldr].
  - case_decide as H; [by apply elem_of_nil in H|done].
  - destruct (decide (p + i = a)) as [<-|Hne].
    + rewrite lookup_insert_eq. case_decide as H; [done|].
      exfalso. apply H. replace (p + i - p) with i by lia. apply list_elem_of_here.
    + rewrite lookup_insert_ne, IH by done.
      repeat case_decide; try done.
      * exfalso. match goal with H : _ ∉ _ :: _ |- _ => apply H end.
        by apply list_elem_of_further.
      * match goal with H : _ ∈ _ :: _ |- _ => apply elem_of_cons in H as [?|?] end;
          [lia|done].
Qed.

Lemma lookup_foldr_delete (p : Z) (c : gmap Z memval) (l : list Z) (a : Z) :
  foldr (fun i c => delete (p + i) c) c l !! a =
  if decide (a - p ∈ l) then None else c !! a.
Proof.
  revert a. induction l as [| i l IH]; intros a; cbn [foldr].
  - case_decide as H; [by apply elem_of_nil in H|done].
  - destruct (decide (p + i = a)) as [<-|Hne].
    + rewrite lookup_delete_eq. case_decide as H; [done|].
      exfalso. apply H. replace (p + i - p) with i by lia. apply list_elem_of_here.
    + rewrite lookup_delete_ne, IH by done.
      repeat case_decide; try done.
      * exfalso. match goal with H : _ ∉ _ :: _ |- _ => apply H end.
        by apply list_elem_of_further.
      * match goal with H : _ ∈ _ :: _ |- _ => apply elem_of_cons in H as [?|?] end;
          [lia|done].
Qed.

Lemma range_fresh_spec m p n :
  range_fresh m p n = true <->
  forall i, 0 <= i < n -> contents m !! (p + i) = None.
Proof.
  unfold range_fresh. rewrite forallb_forall. split.
  - intros H i Hi. specialize (H i).
    rewrite bool_decide_eq_true in H. apply H.
    apply list_elem_of_In, elem_of_seqZ. lia.
  - intros H i Hi%list_elem_of_In%elem_of_seqZ.
    apply bool_decide_eq_true, H. lia.
Qed.

(** What a successful allocation looks like. *)
Lemma malloc_nonnull m n choice p m' :
  malloc m n choice = Some (p, m') -> p <> 0 ->
  p = choice /\ 0 < p /\ p + n <= 2 ^ 64 /\
  (forall i, 0 <= i < n -> contents m !! (p + i) = None) /\
  (forall a, contents m' !! a =
             if decide (p <= a < p + n) then Some Undef else contents m !! a) /\
  blocks m' = <[p := n]> (blocks m).
Proof.
  unfold malloc. destruct (Z.eqb_spec choice 0) as [->|Hc].
  { intros [= <- <-]. done. }
  destruct (_ && _) eqn:E; [|done].
  apply andb_true_iff in E as [E Hfresh]. apply andb_true_iff in E as [Hpos Hle].
  apply Z.ltb_lt in Hpos. apply Z.leb_le in Hle.
  intros [= <- <-] _. repeat split; try done.
  - by apply range_fresh_spec.
  - intros a. simpl. rewrite lookup_foldr_insert.
    destruct (decide (a - choice ∈ seqZ 0 n)) as [Hin|Hnin].
    + apply elem_of_seqZ in Hin. rewrite decide_True; [done|lia].
    + rewrite elem_of_seqZ in Hnin. rewrite decide_False; [done|lia].
Qed.

Lemma malloc_null m n choice m' :
  malloc m n choice = Some (0, m') -> m' = m.
Proof.
  unfold malloc. destruct (Z.eqb_spec choice 0) as [->|Hc].
  { by intros [= <-]. }
  destruct (_ && _); [|done]. intros [= -> _]. done.
Qed.

Lemma free_Some m p m' :
  free m p = Some m' -> p <> 0 ->
  exists n, blocks m !! p = Some n /\
    (forall a, contents m' !! a =
               if decide (p <= a < p + n) then None else contents m !! a) /\
    blocks m' = delete p (blocks m).
Proof.
  unfold free. destruct (Z.eqb_spec p 0) as [->|Hp]; [done|].
  destruct (blocks m !! p) as [n|] eqn:E; [|done].
  intros [= <-] _. exists n. repeat split; try done.
  intros a. simpl. rewrite lookup_foldr_delete.
  destruct (decide (a - p ∈ seqZ 0 n)) as [Hin|Hnin].
  - apply elem_of_seqZ in Hin. rewrite decide_True; [done|lia].
  - rewrite elem_of_seqZ in Hnin. rewrite decide_False; [done|lia].
Qed.

Lemma free_live m p n :
  blocks m !! p = Some n -> is_Some (free m p).
Proof. unfold free. intros ->. destruct (p =? 0); eauto. Qed.

End Allocation.

(** ** Well-formed memory is an invariant of every operation *)

Section WellFormed.

Lemma wf_empty_mem : wf_mem empty_mem.
Proof. split; simpl; intros *; by rewrite ?lookup_empty. Qed.

Lemma wf_store_bytes m a bs m' :
  wf_mem m -> store_bytes m a bs = Some m' -> wf_mem m'.
Proof.
  intros [Hnull Hacc Hdis] H. pose proof (store_bytes_blocks _ _ _ _ H) as Hb.
  split; rewrite Hb.
  - exact Hnull.
  - intros b n Hn i Hi. rewrite (store_bytes_accessible_iff _ _ _ _ _ H).
    by apply (Hacc b n).
  - exact Hdis.
Qed.

Lemma wf_malloc m n choice p m' :
  wf_mem m -> malloc m n choice = Some (p, m') -> wf_mem m'.
Proof.
  intros Hwf H. destruct (decide (p = 0)) as [->|Hp].
  { by rewrite (malloc_null _ _ _ _ H). }
  destruct Hwf as [Hnull Hacc Hdis].
  apply malloc_nonnull in H as (_ & _ & _ & Hfresh & Hc & Hb); [|done].
  split; rewrite Hb.
  - by rewrite lookup_insert_ne.
  - intros b k Hk i Hi. rewrite Hc. case_decide; [eauto|].
    apply lookup_insert_Some in Hk as [[<- <-]|[Hne Hk]]; [lia|by apply (Hacc b k)].
  - intros b1 n1 b2 n2 i1 i2 H1 H2 Hne Hi1 Hi2 Heq.
    apply lookup_insert_Some in H1 as [[<- <-]|[Hne1 H1]];
      apply lookup_insert_Some in H2 as [[<- <-]|[Hne2 H2]]; try done.
    + destruct (Hacc _ _ H2 _ Hi2) as [v Hv].
      rewrite <- Heq, Hfresh in Hv; done.
    + destruct (Hacc _ _ H1 _ Hi1) as [v Hv].
      rewrite Heq, Hfresh in Hv; done.
    + by eapply (Hdis b1 n1 b2 n2 i1 i2).
Qed.

Lemma wf_free m p m' : wf_mem m -> free m p = Some m' -> wf_mem m'.
Proof.
  intros Hwf H. destruct (decide (p = 0)) as [->|Hp].
  { unfold free in H. simpl in H. by injection H as <-. }
  destruct Hwf as [Hnull Hacc Hdis].
  apply free_Some in H as (n & Hn & Hc & Hb); [|done].
  split; rewrite Hb.
  - by rewrite lookup_delete_ne.
  - intros b k Hk i Hi. apply lookup_delete_Some in Hk as [Hne Hk].
    rewrite Hc. case_decide as Hin; [|by apply (Hacc b k)].
    exfalso. apply (Hdis b k p n i (b + i - p) Hk Hn); lia.
  - intros b1 n1 b2 n2 i1 i2 [_ H1]%lookup_delete_Some [_ H2]%lookup_delete_Some.
    by apply Hdis.
Qed.

(** The check that runs decides in favour of well-formed memories only. *)
Lemma wf_memb_sound m : wf_memb m = true -> wf_mem m.
Proof.
  unfold wf_memb. rewrite !andb_true_iff, !forallb_forall.
  intros [[Hnull Hacc] Hdis]. apply bool_decide_eq_true in Hnull.
  split; [done| |].
  - intros b n Hn i Hi.
    assert (In (b, n) (map_to_list (blocks m))) as Hin
      by (by apply list_elem_of_In, elem_of_map_to_list).
    specialize (Hacc _ Hin). rewrite forallb_forall in Hacc.
    specialize (Hacc i). rewrite bool_decide_eq_true in Hacc. apply Hacc.
    apply list_elem_of_In, elem_of_seqZ. simpl. lia.
  - intros b1 n1 b2 n2 i1 i2 H1 H2 Hne Hi1 Hi2.
    assert (In (b1, n1) (map_to_list (blocks m))) as Hin1
      by (by apply list_elem_of_In, elem_of_map_to_list).
    assert (In (b2, n2) (map_to_list (blocks m))) as Hin2
      by (by apply list_elem_of_In, elem_of_map_to_list).
    specialize (Hdis _ Hin1). rewrite forallb_forall in Hdis.
    specialize (Hdis _ Hin2). simpl in Hdis.
    rewrite !orb_true_iff, Z.eqb_eq, !Z.leb_le in Hdis. lia.
Qed.

End WellFormed.

(** ** Handles: the casts between [Point*] and [jlong] *)

Section Handles.

Lemma ptr_of_jlong_of_ptr p : 0 <= p < 2 ^ 64 -> ptr_of_jlong (jlong_of_ptr p) = p.
Proof. unfold ptr_of_jlong, jlong_of_ptr. intros Hp. Z.div_mod_to_equations. lia. Qed.

Lemma jlong_of_ptr_in_range p : jlong_in_range (jlong_of_ptr p).
Proof. unfold jlong_in_range, jlong_of_ptr. Z.div_mod_to_equations. lia. Qed.

Lemma jlong_of_ptr_of_jlong h : jlong_in_range h -> jlong_of_ptr (ptr_of_jlong h) = h.
Proof. unfold jlong_in_range, ptr_of_jlong, jlong_of_ptr. intros Hh. Z.div_mod_to_equations. lia. Qed.

Lemma ptr_of_jlong_inj h1 h2 :
  jlong_in_range h1 -> jlong_in_range h2 ->
  ptr_of_jlong h1 = ptr_of_jlong h2 -> h1 = h2.
Proof.
  intros H1 H2 Heq. rewrite <- (jlong_of_ptr_of_jlong h1), <- (jlong_of_ptr_of_jlong h2) by done.
  by rewrite Heq.
Qed.

Lemma jlong_of_ptr_null p : 0 <= p < 2 ^ 64 -> jlong_of_ptr p = 0 -> p = 0.
Proof. unfold jlong_of_ptr. intros Hp H. Z.div_mod_to_equations. lia. Qed.

End Handles.

(** ** The distance function *)

Section Distance.

Lemma distance_unfold p1 p2 :
  distance p1 p2 = sqrt (CDouble.of_int (distance_operand p1 p2)).
Proof. reflexivity. Qed.

Lemma distance_operand_in_range p1 p2 : CInt.in_range (distance_operand p1 p2).
Proof. apply CIntFacts.wrap_in_range. Qed.

(** The operand computed by the code is the specification's sum of
    squares. *)
Lemma distance_operand_contract p1 p2 :
  distance_operand p1 p2 = Contract.sum_of_squares (x p1) (y p1) (x p2) (y p2).
Proof.
  unfold distance_operand, Contract.sum_of_squares, Contract.square, Contract.abs_diff.
  rewrite !CIntFacts.int32_wrap.
  rewrite !CIntFacts.abs_wrap_Zabs by apply CIntFacts.wrap_in_range.
  unfold CInt.add, CInt.mul, CInt.sub. by rewrite !Z.pow_2_r.
Qed.

(** The operand depends on the exact sum of squares modulo 2^32 only. *)
Lemma distance_operand_exact p1 p2 :
  distance_operand p1 p2 = CInt.wrap ((x p1 - x p2) ^ 2 + (y p1 - y p2) ^ 2).
Proof.
  rewrite distance_operand_contract.
  unfold Contract.sum_of_squares, Contract.square, Contract.abs_diff.
  rewrite !CIntFacts.int32_wrap. apply CIntFacts.wrap_congr.
  assert (forall a b, CInt.wrap a * CInt.wrap b mod 2 ^ 32 = a * b mod 2 ^ 32) as Hmul.
  { intros a b. rewrite (Z.mul_mod (CInt.wrap a)), !CIntFacts.wrap_mod by lia.
    by rewrite <- Z.mul_mod by lia. }
  assert (forall a, CInt.wrap (Z.abs (CInt.wrap a)) ^ 2 mod 2 ^ 32 = a ^ 2 mod 2 ^ 32) as Hsq.
  { intros a. by rewrite !Z.pow_2_r, Hmul, Z.abs_square, Hmul. }
  rewrite (Z.add_mod (CInt.wrap _)), !CIntFacts.wrap_mod, !Hsq by lia.
  by rewrite <- Z.add_mod by lia.
Qed.

(** Without overflow the operand is the exact sum of squares. *)
Lemma distance_operand_no_overflow p1 p2 :
  (x p1 - x p2) ^ 2 + (y p1 - y p2) ^ 2 <= CInt.INT_MAX ->
  distance_operand p1 p2 = (x p1 - x p2) ^ 2 + (y p1 - y p2) ^ 2.
Proof.
  intros H. rewrite distance_operand_exact. apply CIntFacts.wrap_small.
  unfold CInt.in_range, CInt.INT_MIN. split; [|done].
  rewrite !Z.pow_2_r.
  pose proof (Z.square_nonneg (x p1 - x p2)). pose proof (Z.square_nonneg (y p1 - y p2)).
  lia.
Qed.

Lemma distance_operand_sym p1 p2 : distance_operand p1 p2 = distance_operand p2 p1.
Proof.
  unfold distance_operand.
  by rewrite (CIntFacts.abs_sub_sym (x p1)), (CIntFacts.abs_sub_sym (y p1)).
Qed.

Lemma five_is_5 :
  CDouble.to_Z CDouble.five = Some 5 /\ CDouble.of_int 5 = CDouble.five /\
  valid_binary CDouble.prec CDouble.emax CDouble.five = true.
Proof. repeat split; vm_compute; reflexivity. Qed.

(** A non-negative operand gives a result with a clear sign bit. *)
Lemma distance_sign_clear p1 p2 :
  0 <= distance_operand p1 p2 ->
  CDouble.sign_clear (distance p1 p2) = true.
Proof.
  intros H. rewrite distance_unfold. apply CDoubleFacts.SFsqrt_sign_clear.
  apply CDoubleFacts.of_int_sign_clear; [apply distance_operand_in_range|done].
Qed.

(** Exchanging the Points gives doubles that [==] of C relates as well,
    unless the operand is negative: both sides are then NaN, which [==]
    relates to nothing. *)
Lemma distance_symmetric_eqb p1 p2 :
  0 <= distance_operand p1 p2 ->
  CDouble.eqb (distance p1 p2) (distance p2 p1) = true.
Proof.
  intros H. rewrite (distance_unfold p2 p1), <- distance_operand_sym.
  rewrite <- distance_unfold.
  by apply CDoubleFacts.eqb_refl, CDoubleFacts.sign_clear_not_nan, distance_sign_clear.
Qed.

End Distance.

(** ** The entry points of class JNIPoint *)

Section EntryPoints.

Variable e : endianness.

Lemma live_handle_accessible m h :
  wf_mem m -> live_handle m h -> accessible m (ptr_of_jlong h) sizeof_Point.
Proof. intros [_ Hacc _] Hlive. by apply Hacc. Qed.

Lemma setX_blocks m h v m' : JNIPoint_setX e m h v = Some m' -> blocks m' = blocks m.
Proof. apply store_bytes_blocks. Qed.

Lemma setY_blocks m h v m' : JNIPoint_setY e m h v = Some m' -> blocks m' = blocks m.
Proof. apply store_bytes_blocks. Qed.

Lemma setX_accessible m h v m' a n :
  JNIPoint_setX e m h v = Some m' -> accessible m a n -> accessible m' a n.
Proof.
  intros H Hacc i Hi. rewrite (store_bytes_accessible_iff _ _ _ _ _ H). by apply Hacc.
Qed.

Lemma setY_accessible m h v m' a n :
  JNIPoint_setY e m h v = Some m' -> accessible m a n -> accessible m' a n.
Proof.
  intros H Hacc i Hi. rewrite (store_bytes_accessible_iff _ _ _ _ _ H). by apply Hacc.
Qed.

Lemma setX_succeeds m h v :
  accessible m (ptr_of_jlong h) sizeof_Point -> is_Some (JNIPoint_setX e m h v).
Proof.
  intros Hacc. apply store_int_succeeds. intros i Hi. unfold offsetof_x.
  rewrite <- Z.add_assoc. apply Hacc. unfold sizeof_Point. lia.
Qed.

Lemma setY_succeeds m h v :
  accessible m (ptr_of_jlong h) sizeof_Point -> is_Some (JNIPoint_setY e m h v).
Proof.
  intros Hacc. apply store_int_succeeds. intros i Hi. unfold offsetof_y.
  rewrite <- Z.add_assoc. apply Hacc. unfold sizeof_Point. lia.
Qed.

Lemma getX_setX m h v m' :
  CInt.in_range v -> JNIPoint_setX e m h v = Some m' -> JNIPoint_getX e m' h = Some v.
Proof. apply load_store_int_same. Qed.

Lemma getY_setY m h v m' :
  CInt.in_range v -> JNIPoint_setY e m h v = Some m' -> JNIPoint_getY e m' h = Some v.
Proof. apply load_store_int_same. Qed.

(** A store through [setX] leaves every [int] that does not overlap the
    [x] field where it was; likewise for [setY] and the [y] field. *)
Lemma setX_load_int_other m h v m' a :
  JNIPoint_setX e m h v = Some m' ->
  a + 4 <= ptr_of_jlong h + offsetof_x \/ ptr_of_jlong h + offsetof_x + 4 <= a ->
  load_int e m' a = load_int e m a.
Proof. intros H Hd. exact (load_store_int_other e m _ v m' a H Hd). Qed.

Lemma setY_load_int_other m h v m' a :
  JNIPoint_setY e m h v = Some m' ->
  a + 4 <= ptr_of_jlong h + offsetof_y \/ ptr_of_jlong h + offsetof_y + 4 <= a ->
  load_int e m' a = load_int e m a.
Proof. intros H Hd. exact (load_store_int_other e m _ v m' a H Hd). Qed.

Lemma getY_setX m h v m' :
  JNIPoint_setX e m h v = Some m' -> JNIPoint_getY e m' h = JNIPoint_getY e m h.
Proof.
  intros H. apply (setX_load_int_other _ _ _ _ _ H). unfold offsetof_x, offsetof_y. lia.
Qed.

Lemma getX_setY m h v m' :
  JNIPoint_setY e m h v = Some m' -> JNIPoint_getX e m' h = JNIPoint_getX e m h.
Proof.
  intros H. apply (setY_load_int_other _ _ _ _ _ H). unfold offsetof_x, offsetof_y. lia.
Qed.

(** Two distinct live Points share no byte. *)
Lemma live_handles_apart m h h' :
  wf_mem m -> live_handle m h -> live_handle m h' ->
  ptr_of_jlong h <> ptr_of_jlong h' ->
  ptr_of_jlong h' + sizeof_Point <= ptr_of_jlong h \/
  ptr_of_jlong h + sizeof_Point <= ptr_of_jlong h'.
Proof.
  intros [_ _ Hdis] Hh Hh' Hne. unfold live_handle, sizeof_Point in *.
  destruct (Z.le_gt_cases (ptr_of_jlong h' + 8) (ptr_of_jlong h)) as [|H1]; [by left|].
  destruct (Z.le_gt_cases (ptr_of_jlong h + 8) (ptr_of_jlong h')) as [|H2]; [by right|].
  exfalso. destruct (Z.le_gt_cases (ptr_of_jlong h) (ptr_of_jlong h')).
  - apply (Hdis _ _ _ _ (ptr_of_jlong h' - ptr_of_jlong h) 0 Hh Hh' Hne); lia.
  - apply (Hdis _ _ _ _ 0 (ptr_of_jlong h - ptr_of_jlong h') Hh Hh' Hne); lia.
Qed.

(** What [allocate] returns when the allocation succeeds. *)
Lemma allocate_live m choice h m0 :
  JNIPoint_allocate m choice = Some (h, m0) -> h <> 0 ->
  live_handle m0 h /\ accessible m0 (ptr_of_jlong h) sizeof_Point /\
  jlong_in_range h /\
  (forall h', live_handle m h' -> live_handle m0 h').
Proof.
  unfold Java_org_openjdk_bench_jdk_incubator_foreign_points_support_JNIPoint_allocate.
  destruct (malloc m sizeof_Point choice) as [[p m1]|] eqn:E; simpl; [|done].
  intros [= <- <-] Hh.
  assert (p <> 0) as Hp by (by intros ->).
  apply malloc_nonnull in E as (_ & Hpos & Hmax & Hfresh & Hc & Hb); [|done].
  unfold sizeof_Point in *.
  assert (ptr_of_jlong (jlong_of_ptr p) = p) as Hptr by (apply ptr_of_jlong_of_ptr; lia).
  unfold live_handle. rewrite Hptr, Hb. repeat split.
  - apply lookup_insert_eq.
  - intros i Hi. rewrite Hc. rewrite decide_True by lia. eauto.
  - apply jlong_of_ptr_in_range.
  - apply jlong_of_ptr_in_range.
  - intros h' Hh'. destruct (decide (p = ptr_of_jlong h')) as [<-|Hne].
    + apply lookup_insert_eq.
    + by rewrite lookup_insert_ne.
Qed.

(** Every entry point that changes the memory keeps it well formed. *)
Lemma wf_entry_points m :
  wf_mem m ->
  (forall choice h m', JNIPoint_allocate m choice = Some (h, m') -> wf_mem m') /\
  (forall h m', JNIPoint_free m h = Some m' -> wf_mem m') /\
  (forall h v m', JNIPoint_setX e m h v = Some m' -> wf_mem m') /\
  (forall h v m', JNIPoint_setY e m h v = Some m' -> wf_mem m').
Proof.
  intros Hwf. split; [|split; [|split]].
  - intros choice h m'.
    unfold Java_org_openjdk_bench_jdk_incubator_foreign_points_support_JNIPoint_allocate.
    destruct (malloc m sizeof_Point choice) as [[p m1]|] eqn:E; simpl; [|done].
    intros [= _ <-]. by apply (wf_malloc m sizeof_Point choice p).
  - intros h m'. by apply wf_free.
  - intros h v m'. by apply wf_store_bytes.
  - intros h v m'. by apply wf_store_bytes.
Qed.

(** When [malloc] fails, [allocate] returns the null handle and leaves
    the memory as it was; on the empty heap that handle designates
    nothing. *)
Lemma allocate_failure m : JNIPoint_allocate m 0 = Some (0, m).
Proof. reflexivity. Qed.

Lemma null_handle_unusable v :
  JNIPoint_setX e empty_mem 0 v = None /\ JNIPoint_getX e empty_mem 0 = None.
Proof. by destruct e. Qed.

Lemma ptr_of_jlong_nonnull h : jlong_in_range h -> h <> 0 -> ptr_of_jlong h <> 0.
Proof.
  intros Hr Hh Hp. apply Hh. rewrite <- (jlong_of_ptr_of_jlong h Hr), Hp. reflexivity.
Qed.

(** [free] on a live handle succeeds, and nothing is left behind it. *)
Lemma free_retires m h :
  live_handle m h -> ptr_of_jlong h <> 0 ->
  exists m', JNIPoint_free m h = Some m' /\ retired e m' h.
Proof.
  intros Hlive Hp.
  destruct (free_live m _ _ Hlive) as [m' Hfree]. exists m'. split; [done|].
  apply free_Some in Hfree as (n & Hn & Hc & Hb); [|done].
  unfold live_handle in Hlive. rewrite Hlive in Hn. injection Hn as <-.
  unfold sizeof_Point in Hc. repeat split.
  - unfold live_handle. by rewrite Hb, lookup_delete_eq.
  - apply load_int_inaccessible. rewrite Hc, decide_True; [done|].
    unfold offsetof_x. lia.
  - apply load_int_inaccessible. rewrite Hc, decide_True; [done|].
    unfold offsetof_y. lia.
Qed.

(** The by-pointer, the handle and the buffer form read their two
    Points and hand them to [distance]. *)
Lemma distance_ptrs_at m a1 a2 p1 p2 :
  Point_in_range p1 -> Point_in_range p2 ->
  Point_at e m a1 p1 -> Point_at e m a2 p2 ->
  distance_ptrs e m a1 a2 = Some (distance p1 p2).
Proof.
  intros Hr1 Hr2 H1 H2. unfold distance_ptrs.
  by rewrite (load_Point_at e m a1 p1), (load_Point_at e m a2 p2).
Qed.

Lemma JNIPoint_distance_holds m h1 h2 p1 p2 :
  Point_in_range p1 -> Point_in_range p2 ->
  handle_holds e m h1 p1 -> handle_holds e m h2 p2 ->
  JNIPoint_distance e m h1 h2 = Some (distance p1 p2).
Proof. intros Hr1 Hr2 [_ H1] [_ H2]. by apply distance_ptrs_at. Qed.

Lemma BBPoint_distance_encodes m b1 b2 p1 p2 :
  Point_in_range p1 -> Point_in_range p2 ->
  buffer_encodes e m b1 p1 -> buffer_encodes e m b2 p2 ->
  BBPoint_distance e m b1 b2 = Some (distance p1 p2).
Proof.
  intros Hr1 Hr2 H1 H2.
  destruct b1 as [a1 c1|]; [|done]. destruct b2 as [a2 c2|]; [|done].
  destruct H1 as [_ H1], H2 as [_ H2]. by apply distance_ptrs_at.
Qed.

(** The fields of a Point held by a handle are what the getters read. *)
Lemma handle_holds_get m h p :
  Point_in_range p -> handle_holds e m h p ->
  JNIPoint_getX e m h = Some (x p) /\ JNIPoint_getY e m h = Some (y p).
Proof.
  intros Hr [_ Hat]. pose proof (load_Point_at e m _ p Hr Hat) as Hload.
  unfold load_Point in Hload.
  unfold Java_org_openjdk_bench_jdk_incubator_foreign_points_support_JNIPoint_getX,
    Java_org_openjdk_bench_jdk_incubator_foreign_points_support_JNIPoint_getY.
  destruct (load_int e m (ptr_of_jlong h + offsetof_x)) as [vx|]; [|done].
  destruct (load_int e m (ptr_of_jlong h + offsetof_y)) as [vy|]; [|done].
  simpl in Hload. injection Hload as <-. done.
Qed.

End EntryPoints.

(** * The claims *)

Section Claims.

Implicit Types (e : endianness) (m : mem) (p : Point).

(** C1. For every pair of Points the by-value [distance] returns
    sqrt((|x1-x2|)^2 + (|y1-y2|)^2) as a binary64 number, the absolute
    differences, their squares and the sum being computed in 32-bit
    signed arithmetic; the conversion of that sum to [double] is exact. *)
Theorem distance_meets_contract p1 p2 :
  distance p1 p2 = Contract.euclid (x p1) (y p1) (x p2) (y p2) /\
  CDouble.to_Z (CDouble.of_int (Contract.sum_of_squares (x p1) (y p1) (x p2) (y p2)))
  = Some (Contract.sum_of_squares (x p1) (y p1) (x p2) (y p2)).
Proof.
  rewrite <- distance_operand_contract. split.
  - rewrite distance_unfold. unfold Contract.euclid.
    by rewrite <- distance_operand_contract.
  - apply CDoubleFacts.to_Z_of_int, distance_operand_in_range.
Qed.

(** C2. [distance] is symmetric: exchanging the two Points gives the
    same double. *)
Theorem distance_symmetric p1 p2 : distance p1 p2 = distance p2 p1.
Proof. by rewrite !distance_unfold, distance_operand_sym. Qed.

(** C6. The distance from a Point to itself is (positive) zero. *)
Theorem distance_self_zero p :
  distance p p = CDouble.pos_zero /\
  CDouble.eqb (distance p p) (CDouble.of_int 0) = true.
Proof.
  assert (distance p p = CDouble.pos_zero) as ->; [|done].
  unfold distance. by rewrite !CIntFacts.sub_diag.
Qed.

(** C7. From (0,0) to (3,4) and from (-3,-4) to (0,0) the distance is
    the double 5.0, which denotes the integer 5 exactly. *)
Theorem distance_examples :
  distance {| x := 0; y := 0 |} {| x := 3; y := 4 |} = CDouble.five /\
  distance {| x := -3; y := -4 |} {| x := 0; y := 0 |} = CDouble.five /\
  CDouble.to_Z CDouble.five = Some 5.
Proof. repeat split; vm_compute; reflexivity. Qed.

(** C8. [distance] is a total function without any guard against
    overflow: there are two Points in range, here (0,0) and (65536,0),
    for which the product of the absolute difference with itself exceeds
    INT_MAX, whose exact distance is the integer 65536, and for which the
    returned double is neither that integer nor what the formula gives
    without wrap-around. *)
Theorem distance_overflow_unguarded :
  exists p1 p2 d,
    Point_in_range p1 /\ Point_in_range p2 /\
    CInt.INT_MAX < Z.abs (x p1 - x p2) * Z.abs (x p1 - x p2) /\
    Contract.exact_distance_is p1 p2 d /\
    CDouble.to_Z (Contract.exact_euclid p1 p2) = Some d /\
    CDouble.to_Z (distance p1 p2) <> Some d /\
    distance p1 p2 <> Contract.exact_euclid p1 p2.
Proof.
  exists {| x := 0; y := 0 |}, {| x := 65536; y := 0 |}, 65536.
  repeat split; try (vm_compute; congruence).
Qed.

(** C3. After a successful [allocate] yielding the handle [h],
    [setX(h,a)] then [setY(h,b)] succeed, [getX(h)] then returns [a] and
    [getY(h)] returns [b] (7 and 9 in the specification's run), and
    [free(h)] retires the handle.  More generally, in any well-formed
    memory where [h] is live, a field read after it was written through
    [h] is the value written. *)
Theorem allocate_set_get_release e m choice h m0 a b :
  JNIPoint_allocate m choice = Some (h, m0) -> h <> 0 ->
  CInt.in_range a -> CInt.in_range b ->
  (exists m1 m2 m3,
      JNIPoint_setX e m0 h a = Some m1 /\
      JNIPoint_setY e m1 h b = Some m2 /\
      JNIPoint_getX e m2 h = Some a /\
      JNIPoint_getY e m2 h = Some b /\
      JNIPoint_free m2 h = Some m3 /\
      retired e m3 h) /\
  (forall m', wf_mem m' -> live_handle m' h ->
      (exists m'', JNIPoint_setX e m' h a = Some m'' /\
                   JNIPoint_getX e m'' h = Some a) /\
      (exists m'', JNIPoint_setY e m' h b = Some m'' /\
                   JNIPoint_getY e m'' h = Some b)).
Proof.
  intros Halloc Hh Ha Hb.
  destruct (allocate_live m choice h m0 Halloc Hh) as (Hlive & Hacc & Hrange & _).
  split.
  - destruct (setX_succeeds e m0 h a Hacc) as [m1 H1].
    pose proof (setX_accessible e _ _ _ _ _ _ H1 Hacc) as Hacc1.
    destruct (setY_succeeds e m1 h b Hacc1) as [m2 H2].
    assert (live_handle m2 h) as Hlive2.
    { unfold live_handle.
      by rewrite (setY_blocks e _ _ _ _ H2), (setX_blocks e _ _ _ _ H1). }
    destruct (free_retires e m2 h Hlive2) as (m3 & H3 & Hret).
    { by apply ptr_of_jlong_nonnull. }
    exists m1, m2, m3. repeat split; try done.
    + rewrite (getX_setY e _ _ _ _ H2). by apply (getX_setX e m0).
    + by apply (getY_setY e m1).
    + apply Hret.
    + apply Hret.
    + apply Hret.
  - intros m' Hwf Hlive'.
    pose proof (live_handle_accessible m' h Hwf Hlive') as Hacc'.
    split.
    + destruct (setX_succeeds e m' h a Hacc') as [m'' H]. exists m''.
      split; [done|]. by apply (getX_setX e m').
    + destruct (setY_succeeds e m' h b Hacc') as [m'' H]. exists m''.
      split; [done|]. by apply (getY_setY e m').
Qed.

(** C4. When two pointers, and two live handles, designate Points with
    the fields of [p1] and [p2], the by-pointer form and the handle form
    both return the double that the by-value [distance] returns on [p1]
    and [p2]. *)
Theorem distance_forms_agree e m a1 a2 h1 h2 p1 p2 :
  Point_in_range p1 -> Point_in_range p2 ->
  Point_at e m a1 p1 -> Point_at e m a2 p2 ->
  handle_holds e m h1 p1 -> handle_holds e m h2 p2 ->
  distance_ptrs e m a1 a2 = Some (distance p1 p2) /\
  JNIPoint_distance e m h1 h2 = Some (distance p1 p2).
Proof.
  intros Hr1 Hr2 Hp1 Hp2 Hh1 Hh2. split.
  - by apply distance_ptrs_at.
  - by apply JNIPoint_distance_holds.
Qed.

(** C5. On two buffers of at least 8 bytes that encode [p1] and [p2],
    the buffer form returns [distance p1 p2]: the double 5.0 for (1,1)
    and (4,5), and in every case what the handle form returns on live
    handles whose Points have the same fields. *)
Theorem BBPoint_distance_matches e m b1 b2 p1 p2 :
  Point_in_range p1 -> Point_in_range p2 ->
  buffer_encodes e m b1 p1 -> buffer_encodes e m b2 p2 ->
  BBPoint_distance e m b1 b2 = Some (distance p1 p2) /\
  (p1 = {| x := 1; y := 1 |} -> p2 = {| x := 4; y := 5 |} ->
   BBPoint_distance e m b1 b2 = Some CDouble.five) /\
  (forall h1 h2, handle_holds e m h1 p1 -> handle_holds e m h2 p2 ->
   BBPoint_distance e m b1 b2 = JNIPoint_distance e m h1 h2).
Proof.
  intros Hr1 Hr2 Hb1 Hb2.
  pose proof (BBPoint_distance_encodes e m b1 b2 p1 p2 Hr1 Hr2 Hb1 Hb2) as Hbb.
  repeat split.
  - exact Hbb.
  - intros -> ->. rewrite Hbb. reflexivity.
  - intros h1 h2 Hh1 Hh2. rewrite Hbb. symmetry.
    by apply JNIPoint_distance_holds.
Qed.

(** C9. In a well-formed memory, [setX] on a live handle changes the
    [x] field of its Point only: the [y] field of that Point, both fields
    of every other live Point and the set of live blocks stay as they
    were.  The same holds of [setY] and the [y] field. *)
Theorem set_field_frame e m h v m' :
  wf_mem m -> live_handle m h -> jlong_in_range h ->
  (JNIPoint_setX e m h v = Some m' ->
   JNIPoint_getY e m' h = JNIPoint_getY e m h /\
   blocks m' = blocks m /\
   forall h', live_handle m h' -> jlong_in_range h' -> h' <> h ->
     JNIPoint_getX e m' h' = JNIPoint_getX e m h' /\
     JNIPoint_getY e m' h' = JNIPoint_getY e m h') /\
  (JNIPoint_setY e m h v = Some m' ->
   JNIPoint_getX e m' h = JNIPoint_getX e m h /\
   blocks m' = blocks m /\
   forall h', live_handle m h' -> jlong_in_range h' -> h' <> h ->
     JNIPoint_getX e m' h' = JNIPoint_getX e m h' /\
     JNIPoint_getY e m' h' = JNIPoint_getY e m h').
Proof.
  intros Hwf Hlive Hrange.
  assert (forall h', live_handle m h' -> jlong_in_range h' -> h' <> h ->
            ptr_of_jlong h' + 8 <= ptr_of_jlong h \/
            ptr_of_jlong h + 8 <= ptr_of_jlong h') as Hapart.
  { intros h' Hlive' Hrange' Hne.
    apply (live_handles_apart m h h' Hwf Hlive Hlive').
    intros Heq. apply Hne. symmetry. by apply ptr_of_jlong_inj. }
  split; intros Hset.
  - split; [by apply (getY_setX e m h v)|].
    split; [by apply (setX_blocks e m h v)|].
    intros h' Hlive' Hrange' Hne. specialize (Hapart h' Hlive' Hrange' Hne).
    split; apply (setX_load_int_other e _ _ _ _ _ Hset);
      unfold offsetof_x, offsetof_y; lia.
  - split; [by apply (getX_setY e m h v)|].
    split; [by apply (setY_blocks e m h v)|].
    intros h' Hlive' Hrange' Hne. specialize (Hapart h' Hlive' Hrange' Hne).
    split; apply (setY_load_int_other e _ _ _ _ _ Hset);
      unfold offsetof_x, offsetof_y; lia.
Qed.

(** The by-value form alone: a non-negative operand gives a result that
    is [>= 0], a negative one gives NaN. *)
Lemma distance_nonneg p1 p2 :
  0 <= distance_operand p1 p2 ->
  CDouble.leb CDouble.pos_zero (distance p1 p2) = true.
Proof. intros H. by apply CDoubleFacts.leb_zero_sign_clear, distance_sign_clear. Qed.

Lemma distance_nan p1 p2 :
  distance_operand p1 p2 < 0 -> distance p1 p2 = CDouble.nan.
Proof.
  intros H. rewrite distance_unfold.
  apply CDoubleFacts.SFsqrt_of_int_negative; [apply distance_operand_in_range|done].
Qed.

(** C10, as the code has it.  When the [int] handed to [sqrt] is not
    negative, as it is whenever nothing overflows, each of the three
    forms returns a double that is [>= 0]. *)
Theorem distance_nonneg_unless_wrapped e m a1 a2 h1 h2 p1 p2 :
  Point_in_range p1 -> Point_in_range p2 ->
  0 <= distance_operand p1 p2 ->
  Point_at e m a1 p1 -> Point_at e m a2 p2 ->
  handle_holds e m h1 p1 -> handle_holds e m h2 p2 ->
  CDouble.leb CDouble.pos_zero (distance p1 p2) = true /\
  (exists r, distance_ptrs e m a1 a2 = Some r /\
             CDouble.leb CDouble.pos_zero r = true) /\
  (exists r, JNIPoint_distance e m h1 h2 = Some r /\
             CDouble.leb CDouble.pos_zero r = true).
Proof.
  intros Hr1 Hr2 Hop Hp1 Hp2 Hh1 Hh2.
  pose proof (distance_nonneg p1 p2 Hop) as Hnn.
  repeat split; [done| |]; exists (distance p1 p2); split; try done.
  - by apply distance_ptrs_at.
  - by apply JNIPoint_distance_holds.
Qed.

End Claims.

(** * The claims on the run of section "A run of the entry points" *)

Ltac by_computation := repeat split; vm_compute; congruence.

(** The run of the specification: allocation at address 4096 on the
    empty heap, then 7 and 9. *)
Lemma allocate_set_get_release_witness :
  4096 <> 0 /\ CInt.in_range 7 /\ CInt.in_range 9 /\
  exists m0 m1 m2 m3,
    JNIPoint_allocate empty_mem 4096 = Some (4096, m0) /\
    JNIPoint_setX LittleEndian m0 4096 7 = Some m1 /\
    JNIPoint_setY LittleEndian m1 4096 9 = Some m2 /\
    JNIPoint_getX LittleEndian m2 4096 = Some 7 /\
    JNIPoint_getY LittleEndian m2 4096 = Some 9 /\
    JNIPoint_free m2 4096 = Some m3 /\
    retired LittleEndian m3 4096.
Proof.
  assert (4096 <> 0) as Hh by lia.
  assert (CInt.in_range 7) as H7 by by_computation.
  assert (CInt.in_range 9) as H9 by by_computation.
  repeat split; try done.
  pose (m0 := mem_after empty_mem (snd <$> JNIPoint_allocate empty_mem 4096)).
  assert (JNIPoint_allocate empty_mem 4096 = Some (4096, m0)) as Halloc
    by (vm_compute; reflexivity).
  destruct (allocate_set_get_release LittleEndian empty_mem 4096 4096 m0 7 9
              Halloc Hh H7 H9) as [(m1 & m2 & m3 & Hrun) _].
  exists m0, m1, m2, m3. split; [exact Halloc|exact Hrun].
Defined.

(** The three forms on the Points (1,1) and (4,5) of the run, on a
    big-endian platform; the pointers are those of the two buffers. *)
Lemma distance_forms_agree_witness :
  Point_in_range scenario_P1 /\ Point_in_range scenario_P2 /\
  Point_at BigEndian (scenario_mem BigEndian) 256 scenario_P1 /\
  Point_at BigEndian (scenario_mem BigEndian) 512 scenario_P2 /\
  handle_holds BigEndian (scenario_mem BigEndian) 4096 scenario_P1 /\
  handle_holds BigEndian (scenario_mem BigEndian) 8192 scenario_P2 /\
  distance_ptrs BigEndian (scenario_mem BigEndian) 256 512 = Some (distance scenario_P1 scenario_P2) /\
  JNIPoint_distance BigEndian (scenario_mem BigEndian) 4096 8192 = Some (distance scenario_P1 scenario_P2).
Proof.
  assert (Point_in_range scenario_P1) as Hr1 by by_computation.
  assert (Point_in_range scenario_P2) as Hr2 by by_computation.
  assert (Point_at BigEndian (scenario_mem BigEndian) 256 scenario_P1) as Hp1 by by_computation.
  assert (Point_at BigEndian (scenario_mem BigEndian) 512 scenario_P2) as Hp2 by by_computation.
  assert (handle_holds BigEndian (scenario_mem BigEndian) 4096 scenario_P1) as Hh1 by by_computation.
  assert (handle_holds BigEndian (scenario_mem BigEndian) 8192 scenario_P2) as Hh2 by by_computation.
  repeat (split; [assumption|]).
  exact (distance_forms_agree BigEndian (scenario_mem BigEndian) 256 512 4096 8192
           scenario_P1 scenario_P2 Hr1 Hr2 Hp1 Hp2 Hh1 Hh2).
Defined.

(** The two buffers of the run against its two handles. *)
Lemma BBPoint_distance_matches_witness :
  Point_in_range scenario_P1 /\ Point_in_range scenario_P2 /\
  buffer_encodes LittleEndian (scenario_mem LittleEndian) scenario_buffer1 scenario_P1 /\
  buffer_encodes LittleEndian (scenario_mem LittleEndian) scenario_buffer2 scenario_P2 /\
  BBPoint_distance LittleEndian (scenario_mem LittleEndian)
    scenario_buffer1 scenario_buffer2 = Some CDouble.five /\
  BBPoint_distance LittleEndian (scenario_mem LittleEndian)
    scenario_buffer1 scenario_buffer2 =
  JNIPoint_distance LittleEndian (scenario_mem LittleEndian) 4096 8192.
Proof.
  assert (Point_in_range scenario_P1) as Hr1 by by_computation.
  assert (Point_in_range scenario_P2) as Hr2 by by_computation.
  assert (buffer_encodes LittleEndian (scenario_mem LittleEndian) scenario_buffer1 scenario_P1)
    as Hb1 by by_computation.
  assert (buffer_encodes LittleEndian (scenario_mem LittleEndian) scenario_buffer2 scenario_P2)
    as Hb2 by by_computation.
  assert (handle_holds LittleEndian (scenario_mem LittleEndian) 4096 scenario_P1) as Hh1
    by by_computation.
  assert (handle_holds LittleEndian (scenario_mem LittleEndian) 8192 scenario_P2) as Hh2
    by by_computation.
  repeat (split; [assumption|]).
  destruct (BBPoint_distance_matches LittleEndian (scenario_mem LittleEndian)
              scenario_buffer1 scenario_buffer2 scenario_P1 scenario_P2 Hr1 Hr2 Hb1 Hb2)
    as (_ & Hfive & Hsame).
  split; [exact (Hfive eq_refl eq_refl)|exact (Hsame 4096 8192 Hh1 Hh2)].
Defined.

(** Writing 42 to the [x] field of the first Point of the run. *)
Lemma set_field_frame_witness :
  wf_mem (scenario_mem LittleEndian) /\
  live_handle (scenario_mem LittleEndian) 4096 /\
  live_handle (scenario_mem LittleEndian) 8192 /\
  exists m',
    JNIPoint_setX LittleEndian (scenario_mem LittleEndian) 4096 42 = Some m' /\
    JNIPoint_getY LittleEndian m' 4096 =
      JNIPoint_getY LittleEndian (scenario_mem LittleEndian) 4096 /\
    JNIPoint_getX LittleEndian m' 8192 =
      JNIPoint_getX LittleEndian (scenario_mem LittleEndian) 8192 /\
    JNIPoint_getY LittleEndian m' 8192 =
      JNIPoint_getY LittleEndian (scenario_mem LittleEndian) 8192.
Proof.
  assert (wf_mem (scenario_mem LittleEndian)) as Hwf
    by (apply wf_memb_sound; vm_compute; reflexivity).
  assert (live_handle (scenario_mem LittleEndian) 4096) as Hl1 by by_computation.
  assert (live_handle (scenario_mem LittleEndian) 8192) as Hl2 by by_computation.
  assert (jlong_in_range 4096) as Hj1 by by_computation.
  assert (jlong_in_range 8192) as Hj2 by by_computation.
  repeat (split; [assumption|]).
  pose (m' := mem_after (scenario_mem LittleEndian)
                (JNIPoint_setX LittleEndian (scenario_mem LittleEndian) 4096 42)).
  assert (JNIPoint_setX LittleEndian (scenario_mem LittleEndian) 4096 42 = Some m')
    as Hset by (vm_compute; reflexivity).
  destruct (set_field_frame LittleEndian (scenario_mem LittleEndian) 4096 42 m'
              Hwf Hl1 Hj1) as [HX _].
  destruct (HX Hset) as (Hy & _ & Hother).
  assert (8192 <> 4096) as Hne by lia.
  destruct (Hother 8192 Hl2 Hj2 Hne) as [Hx' Hy'].
  exists m'. repeat split; assumption.
Defined.

(** C10 as stated fails: 46341 * 46341 wraps to -2147479015, the square
    root of a negative double is NaN, and [0 <= NaN] does not hold. *)
Lemma distance_wrapped_counterexample :
  Point_in_range {| x := 0; y := 0 |} /\ Point_in_range {| x := 46341; y := 0 |} /\
  distance {| x := 0; y := 0 |} {| x := 46341; y := 0 |} = CDouble.nan /\
  CDouble.leb CDouble.pos_zero
    (distance {| x := 0; y := 0 |} {| x := 46341; y := 0 |}) = false.
Proof. by_computation. Qed.

(** The Points (1,1) and (4,5) of the run: the operand is 25. *)
Lemma distance_nonneg_unless_wrapped_witness :
  Point_in_range scenario_P1 /\ Point_in_range scenario_P2 /\
  0 <= distance_operand scenario_P1 scenario_P2 /\
  Point_at LittleEndian (scenario_mem LittleEndian) 256 scenario_P1 /\
  Point_at LittleEndian (scenario_mem LittleEndian) 512 scenario_P2 /\
  handle_holds LittleEndian (scenario_mem LittleEndian) 4096 scenario_P1 /\
  handle_holds LittleEndian (scenario_mem LittleEndian) 8192 scenario_P2 /\
  CDouble.leb CDouble.pos_zero (distance scenario_P1 scenario_P2) = true /\
  (exists r, distance_ptrs LittleEndian (scenario_mem LittleEndian) 256 512 = Some r /\
             CDouble.leb CDouble.pos_zero r = true) /\
  (exists r, JNIPoint_distance LittleEndian (scenario_mem LittleEndian) 4096 8192 = Some r /\
             CDouble.leb CDouble.pos_zero r = true).
Proof.
  assert (Point_in_range scenario_P1) as Hr1 by by_computation.
  assert (Point_in_range scenario_P2) as Hr2 by by_computation.
  assert (0 <= distance_operand scenario_P1 scenario_P2) as Hop by by_computation.
  assert (Point_at LittleEndian (scenario_mem LittleEndian) 256 scenario_P1) as Hp1
    by by_computation.
  assert (Point_at LittleEndian (scenario_mem LittleEndian) 512 scenario_P2) as Hp2
    by by_computation.
  assert (handle_holds LittleEndian (scenario_mem LittleEndian) 4096 scenario_P1) as Hh1
    by by_computation.
  assert (handle_holds LittleEndian (scenario_mem LittleEndian) 8192 scenario_P2) as Hh2
    by by_computation.
  repeat (split; [assumption|]).
  exact (distance_nonneg_unless_wrapped LittleEndian (scenario_mem LittleEndian)
           256 512 4096 8192 scenario_P1 scenario_P2 Hr1 Hr2 Hop Hp1 Hp2 Hh1 Hh2).
Defined.


Module SqrtFacts.
Import CDouble.

Lemma digits2_pos_lower m : 2 ^ (Z.pos (digits2_pos m) - 1) <= Z.pos m.
Proof.
  rewrite CDoubleFacts.digits2_pos_size.
  pose proof (Pos.size_le m) as Hle.
  assert (Z.pos (2 ^ Pos.size m) <= Z.pos m~0) as Hz by exact Hle.
  rewrite Pos2Z.inj_pow, Pos2Z.inj_xO in Hz.
  assert (2 ^ Z.pos (Pos.size m) = 2 * 2 ^ (Z.pos (Pos.size m) - 1)) as Hpow
    by (rewrite <- Z.pow_succ_r by lia; f_equal; lia).
  lia.
Qed.

Lemma digits2_pos_upper m : Z.pos m < 2 ^ Z.pos (digits2_pos m).
Proof.
  rewrite CDoubleFacts.digits2_pos_size.
  pose proof (Pos.size_gt m) as Hgt.
  assert (Z.pos m < Z.pos (2 ^ Pos.size m)) as Hz by exact Hgt.
  by rewrite Pos2Z.inj_pow in Hz.
Qed.

(** A square has twice the digits of its root, or one less. *)
Lemma digits2_pos_square k :
  Z.div2 (Z.pos (digits2_pos (k * k)) + 1) = Z.pos (digits2_pos k).
Proof.
  set (dk := Z.pos (digits2_pos k)). set (d := Z.pos (digits2_pos (k * k))).
  pose proof (digits2_pos_lower k) as Hlo. pose proof (digits2_pos_upper k) as Hup.
  pose proof (digits2_pos_upper (k * k)) as Hup2.
  fold dk in Hlo, Hup. fold d in Hup2.
  assert (1 <= dk) by (unfold dk; lia).
  assert (0 < 2 ^ (dk - 1)) by (apply Z.pow_pos_nonneg; lia).
  assert (d <= 2 * dk) as Hle.
  { apply CDoubleFacts.digits2_pos_bound; [lia|].
    rewrite Pos2Z.inj_mul. replace (2 * dk) with (dk + dk) by lia.
    rewrite Z.pow_add_r by lia. nia. }
  assert (2 * dk - 2 < d) as Hge.
  { destruct (Z.le_gt_cases d (2 * dk - 2)) as [Hd|]; [exfalso|lia].
    assert (2 ^ d <= 2 ^ (2 * dk - 2)) by (apply Z.pow_le_mono_r; lia).
    replace (2 * dk - 2) with ((dk - 1) + (dk - 1)) in * by lia.
    rewrite Z.pow_add_r in * by lia. rewrite Pos2Z.inj_mul in Hup2. nia. }
  rewrite Z.div2_div. Z.div_mod_to_equations. lia.
Qed.

Lemma sqrtrem_square a : 0 <= a -> Z.sqrtrem (a * a) = (a, 0).
Proof.
  intros Ha. pose proof (Z.sqrtrem_spec (a * a)) as Hspec.
  destruct (Z.sqrtrem (a * a)) as [s r].
  destruct Hspec as [Heq Hr]; [nia|].
  assert (s = a) as -> by nia. f_equal. nia.
Qed.


(** The rounding that [of_int] performs on a positive integer of at most
    52 bits, before it is carried out. *)
Lemma binary_round_unfold s m :
  Z.pos (digits2_pos m) <= 52 ->
  binary_round prec emax s m 0 =
  binary_round_aux prec emax s
    (Z.pos (Pos.iter xO m (Z.to_pos (53 - Z.pos (digits2_pos m)))))
    (Z.pos (digits2_pos m) - 53) loc_Exact.
Proof.
  intros Hd. set (d := Z.pos (digits2_pos m)) in *.
  assert (1 <= d) by (unfold d; lia).
  unfold binary_round, shl_align. fold d.
  assert (fexp prec emax (d + 0) = d - 53) as -> by (unfold fexp, emin, prec, emax; lia).
  destruct (d - 53 - 0) as [| q | q] eqn:Hq; try lia.
  by assert (Z.to_pos (53 - d) = q) as -> by lia.
Qed.

Lemma sqrt_of_int_square k :
  Z.pos k * Z.pos k <= 2 ^ 31 ->
  SFsqrt prec emax (of_int (Z.pos (k * k))) = of_int (Z.pos k).
Proof.
  intros Hk.
  assert (Z.pos k <= 2 ^ 31) as Hk1 by nia.
  rewrite CDoubleFacts.of_int_pos by (rewrite Pos2Z.inj_mul; lia).
  pose proof (digits2_pos_square k) as Hdig.
  assert (Z.pos (digits2_pos (k * k)) <= 32) as Hd32
    by (apply CDoubleFacts.digits2_pos_bound; [lia|rewrite Pos2Z.inj_mul; lia]).
  assert (Z.pos (digits2_pos k) <= 32) as Hdk32
    by (apply CDoubleFacts.digits2_pos_bound; lia).
  set (d := Z.pos (digits2_pos (k * k))) in *.
  set (dk := Z.pos (digits2_pos k)) in *.
  assert (1 <= d) by (unfold d; lia). assert (1 <= dk) by (unfold dk; lia).
  rewrite Z.div2_div in Hdig.
  unfold of_int, binary_normalize. rewrite binary_round_unfold by (fold dk; lia). fold dk.
  unfold SFsqrt, SFsqrt_core_binary, Zdigits2.
  rewrite CDoubleFacts.digits2_pos_iter_xO. fold d.
  rewrite !Z.div2_div.
  assert (fexp prec emax ((d + Z.pos (Z.to_pos (53 - d)) + (d - 53) + 1) / 2)
          `min` ((d - 53) / 2) = dk - 53) as ->.
  { replace (d + Z.pos (Z.to_pos (53 - d)) + (d - 53) + 1) with (d + 1) by lia.
    rewrite Hdig. unfold fexp, emin, prec, emax. Z.div_mod_to_equations. lia. }
  assert (exists t, d - 53 - 2 * (dk - 53) = Z.pos t) as [t Ht].
  { exists (Z.to_pos (d - 53 - 2 * (dk - 53))). Z.div_mod_to_equations. lia. }
  rewrite Ht, <- Ht.
  rewrite Z.shiftl_mul_pow2 by lia. rewrite !CDoubleFacts.Zpos_iter_xO.
  rewrite !Z2Pos.id by lia.
  assert (Z.pos (k * k) * 2 ^ (53 - d) * 2 ^ (d - 53 - 2 * (dk - 53)) =
          Z.pos k * 2 ^ (53 - dk) * (Z.pos k * 2 ^ (53 - dk))) as ->.
  { rewrite Pos2Z.inj_mul, <- Z.mul_assoc, <- Z.pow_add_r by lia.
    replace (53 - d + (d - 53 - 2 * (dk - 53))) with ((53 - dk) + (53 - dk)) by lia.
    rewrite Z.pow_add_r by lia. ring. }
  rewrite sqrtrem_square; [done|].
  apply Z.mul_nonneg_nonneg; [lia|]. apply Z.pow_nonneg. lia.
Qed.
End SqrtFacts.

(** * Further properties of [distance] *)

Section DistanceMore.

Implicit Types (p : Point).

Lemma in_range_of_square k : 0 <= k -> k * k <= CInt.INT_MAX -> CInt.in_range k.
Proof. unfold CInt.in_range, CInt.INT_MIN, CInt.INT_MAX. intros. nia. Qed.

(** X1. When the exact sum of squares is a perfect square [k * k] that an
    [int] can hold, [distance] returns the double [k] itself, without any
    rounding error: Pythagorean triples and Points on a common horizontal
    or vertical line are measured exactly. *)
Theorem distance_exact_on_squares p1 p2 k :
  0 <= k -> k * k <= CInt.INT_MAX ->
  (x p1 - x p2) ^ 2 + (y p1 - y p2) ^ 2 = k * k ->
  distance p1 p2 = CDouble.of_int k /\ CDouble.to_Z (distance p1 p2) = Some k.
Proof.
  intros Hk Hmax Hsq.
  assert (distance p1 p2 = CDouble.of_int k) as ->.
  { rewrite distance_unfold, distance_operand_no_overflow by lia. rewrite Hsq.
    destruct k as [| q | q]; [reflexivity| |lia].
    change (Z.pos q * Z.pos q) with (Z.pos (q * q)).
    apply SqrtFacts.sqrt_of_int_square.
    unfold CInt.INT_MAX in Hmax. lia. }
  split; [done|]. by apply CDoubleFacts.to_Z_of_int, in_range_of_square.
Qed.

(** X2. Moving both Points by the same offsets, in [int] arithmetic, does
    not change their distance, whether or not the moved coordinates wrap
    around. *)
Theorem distance_translation_invariant p1 p2 tx ty :
  distance {| x := CInt.add (x p1) tx; y := CInt.add (y p1) ty |}
           {| x := CInt.add (x p2) tx; y := CInt.add (y p2) ty |}
  = distance p1 p2.
Proof.
  assert (forall a b t, CInt.sub (CInt.add a t) (CInt.add b t) = CInt.sub a b) as Hsub
    by (intros; CIntFacts.solve_wrap).
  unfold distance. cbn [x y]. by rewrite !Hsub.
Qed.

(** X3. [distance] treats the two axes alike and ignores orientation:
    exchanging [x] and [y] in both Points, or negating the [x] coordinates
    (or the [y] coordinates) of both, gives the same double. *)
Theorem distance_coordinate_symmetries p1 p2 :
  distance {| x := y p1; y := x p1 |} {| x := y p2; y := x p2 |} = distance p1 p2 /\
  distance {| x := CInt.neg (x p1); y := y p1 |} {| x := CInt.neg (x p2); y := y p2 |}
  = distance p1 p2 /\
  distance {| x := x p1; y := CInt.neg (y p1) |} {| x := x p2; y := CInt.neg (y p2) |}
  = distance p1 p2.
Proof.
  assert (forall a b, CInt.sub (CInt.neg a) (CInt.neg b) = CInt.sub b a) as Hneg
    by (intros; CIntFacts.solve_wrap).
  unfold distance. cbn [x y]. rewrite !Hneg.
  rewrite (CIntFacts.abs_sub_sym (x p2)), (CIntFacts.abs_sub_sym (y p2)).
  repeat split. f_equal. f_equal. unfold CInt.add. f_equal. lia.
Qed.

(** X14. The result of [distance] is never negative and never the
    negative zero: it is NaN when the [int] handed to [sqrt] has wrapped
    to a negative value, and a double with a clear sign bit, [>= 0],
    otherwise. *)
Theorem distance_nan_or_nonneg p1 p2 :
  (distance_operand p1 p2 < 0 /\ distance p1 p2 = CDouble.nan) \/
  (0 <= distance_operand p1 p2 /\ CDouble.sign_clear (distance p1 p2) = true /\
   CDouble.leb CDouble.pos_zero (distance p1 p2) = true).
Proof.
  destruct (Z.lt_ge_cases (distance_operand p1 p2) 0) as [Hneg|Hnn].
  - left. split; [done|]. rewrite distance_unfold.
    apply CDoubleFacts.SFsqrt_of_int_negative; [apply distance_operand_in_range|done].
  - right. pose proof (distance_sign_clear p1 p2 Hnn) as Hs.
    repeat split; [done|done|]. by apply CDoubleFacts.leb_zero_sign_clear.
Qed.

Lemma small_differences_no_overflow p1 p2 :
  Z.abs (x p1 - x p2) <= 32767 -> Z.abs (y p1 - y p2) <= 32767 ->
  (x p1 - x p2) ^ 2 + (y p1 - y p2) ^ 2 <= CInt.INT_MAX.
Proof. unfold CInt.INT_MAX. rewrite !Z.pow_2_r. intros. nia. Qed.

(** X15. Overflow is the only way [distance] departs from the formula:
    whenever the exact sum of squares fits an [int], as it does when both
    coordinate differences are at most 32767 in absolute value, the result
    is what the formula gives without any wrap-around, and it is [>= 0]. *)
Theorem distance_exact_without_overflow p1 p2 :
  (x p1 - x p2) ^ 2 + (y p1 - y p2) ^ 2 <= CInt.INT_MAX ->
  distance p1 p2 = Contract.exact_euclid p1 p2 /\
  CDouble.leb CDouble.pos_zero (distance p1 p2) = true.
Proof.
  intros Hsum. pose proof (distance_operand_no_overflow p1 p2 Hsum) as Hop.
  split.
  - by rewrite distance_unfold, Hop.
  - apply CDoubleFacts.leb_zero_sign_clear, distance_sign_clear. rewrite Hop.
    rewrite !Z.pow_2_r.
    pose proof (Z.square_nonneg (x p1 - x p2)). pose proof (Z.square_nonneg (y p1 - y p2)).
    lia.
Qed.

End DistanceMore.

(** Points three apart on one axis and four on the other, far from the
    origin. *)
Lemma distance_exact_on_squares_witness :
  0 <= 5 /\ 5 * 5 <= CInt.INT_MAX /\
  (2000000003 - 2000000000) ^ 2 + (-7 - -3) ^ 2 = 5 * 5 /\
  distance {| x := 2000000003; y := -7 |} {| x := 2000000000; y := -3 |}
  = CDouble.of_int 5.
Proof.
  assert (0 <= 5) as H0 by lia.
  assert (5 * 5 <= CInt.INT_MAX) as H1 by (vm_compute; congruence).
  assert ((2000000003 - 2000000000) ^ 2 + (-7 - -3) ^ 2 = 5 * 5) as H2 by reflexivity.
  repeat (split; [assumption|]).
  exact (proj1 (distance_exact_on_squares
                  {| x := 2000000003; y := -7 |} {| x := 2000000000; y := -3 |} 5
                  H0 H1 H2)).
Defined.

(** Two Points at the largest coordinate differences that never overflow.
    *)
Lemma distance_exact_without_overflow_witness :
  (16383 - -16384) ^ 2 + (-16384 - 16383) ^ 2 <= CInt.INT_MAX /\
  distance {| x := 16383; y := -16384 |} {| x := -16384; y := 16383 |}
  = Contract.exact_euclid {| x := 16383; y := -16384 |} {| x := -16384; y := 16383 |}.
Proof.
  assert ((16383 - -16384) ^ 2 + (-16384 - 16383) ^ 2 <= CInt.INT_MAX) as Hsum
    by (apply (small_differences_no_overflow
                 {| x := 16383; y := -16384 |} {| x := -16384; y := 16383 |});
        vm_compute; congruence).
  split; [exact Hsum|].
  exact (proj1 (distance_exact_without_overflow
                  {| x := 16383; y := -16384 |} {| x := -16384; y := 16383 |} Hsum)).
Defined.

(** * Further properties of the heap and of the entry points *)

Section HeapMore.

Variable e : endianness.

Implicit Types (m : mem) (h v : Z).

Lemma write_bytes_lookup_is_Some bs : forall a (c : gmap Z memval) a',
  is_Some (c !! a') -> is_Some (write_bytes a bs c !! a').
Proof.
  induction bs as [| b bs IH]; intros a c a' Hc; simpl; [done|].
  destruct (decide (a = a')) as [<-|Hne].
  - rewrite lookup_insert_eq. eauto.
  - rewrite lookup_insert_ne by done. by apply IH.
Qed.

Lemma wf_with_bytes m a bs : wf_mem m -> wf_mem (with_bytes a bs m).
Proof.
  intros [Hnull Hacc Hdis]. split; simpl; [done| |done].
  intros b n Hn i Hi. apply write_bytes_lookup_is_Some. by apply (Hacc b n).
Qed.

Lemma wf_entry_step m m' : wf_mem m -> entry_step e m m' -> wf_mem m'.
Proof.
  intros Hwf Hstep.
  destruct (wf_entry_points e m Hwf) as (Ha & Hf & Hx & Hy).
  destruct Hstep as [choice h m' H | h m' H | h v m' H | h v m' H | a bs]; eauto.
  by apply wf_with_bytes.
Qed.

(** X4. Whatever sequence of entry points and host writes a run consists
    of, the heap stays well formed: no block at the null address, every
    live Point accessible over its 8 bytes, and no two live Points sharing
    a byte. *)
Theorem reachable_wf m :
  reachable e m ->
  wf_mem m /\
  forall h h', live_handle m h -> live_handle m h' ->
    ptr_of_jlong h <> ptr_of_jlong h' ->
    ptr_of_jlong h' + sizeof_Point <= ptr_of_jlong h \/
    ptr_of_jlong h + sizeof_Point <= ptr_of_jlong h'.
Proof.
  intros Hreach.
  assert (wf_mem m) as Hwf.
  { revert m Hreach. apply rtc_ind_r; [apply wf_empty_mem|].
    intros m2 m3 _ Hstep IH. by apply (wf_entry_step m2). }
  split; [done|]. intros h h'. by apply live_handles_apart.
Qed.

Lemma load_int_ext m m' a :
  (forall i, 0 <= i < 4 -> contents m' !! (a + i) = contents m !! (a + i)) ->
  load_int e m' a = load_int e m a.
Proof. intros H. unfold load_int. f_equal. by apply load_bytes_ext. Qed.

Lemma load_int_undef m a : contents m !! a = Some Undef -> load_int e m a = None.
Proof. unfold load_int. simpl. unfold load_byte. by intros ->. Qed.

Lemma live_nonnull m h : wf_mem m -> live_handle m h -> ptr_of_jlong h <> 0.
Proof. intros [Hnull _ _] Hlive Hp. unfold live_handle in Hlive. congruence. Qed.

(** X5. A successful [allocate] hands out storage that was not in use:
    the new handle was not live and differs from every live handle, the
    Points that were live stay live with their fields as they were, and
    the fields of the new Point are not initialised, so that reading them
    has no defined result. *)
Theorem allocate_fresh m choice h m0 :
  wf_mem m -> JNIPoint_allocate m choice = Some (h, m0) -> h <> 0 ->
  ~ live_handle m h /\
  (forall h', live_handle m h' ->
     ptr_of_jlong h' <> ptr_of_jlong h /\ live_handle m0 h' /\
     JNIPoint_getX e m0 h' = JNIPoint_getX e m h' /\
     JNIPoint_getY e m0 h' = JNIPoint_getY e m h') /\
  JNIPoint_getX e m0 h = None /\ JNIPoint_getY e m0 h = None.
Proof.
  intros Hwf Halloc Hh.
  destruct (allocate_live m choice h m0 Halloc Hh) as (_ & _ & _ & Hkeep).
  revert Halloc.
  unfold Java_org_openjdk_bench_jdk_incubator_foreign_points_support_JNIPoint_allocate.
  destruct (malloc m sizeof_Point choice) as [[p m1]|] eqn:E; simpl; [|done].
  intros [= Hhp <-].
  assert (p <> 0) as Hp by (intros ->; by apply Hh).
  apply malloc_nonnull in E as (_ & Hpos & Hmax & Hfresh & Hc & Hb); [|done].
  unfold sizeof_Point in *.
  assert (ptr_of_jlong h = p) as Hptr
    by (rewrite <- Hhp; apply ptr_of_jlong_of_ptr; lia).
  assert (forall h', live_handle m h' ->
            forall i, 0 <= i < 8 -> ~ (p <= ptr_of_jlong h' + i < p + 8)) as Hapart.
  { intros h' Hlive' i Hi Hin.
    destruct (live_handle_accessible m h' Hwf Hlive' i Hi) as [w Hw].
    assert (contents m !! (p + (ptr_of_jlong h' + i - p)) = None) as Hf
      by (apply Hfresh; lia).
    replace (p + (ptr_of_jlong h' + i - p)) with (ptr_of_jlong h' + i) in Hf by lia.
    congruence. }
  repeat split.
  - intros Hlive. apply (Hapart h Hlive 0); lia.
  - rewrite Hptr. intros Heq. apply (Hapart h' H 0); lia.
  - by apply Hkeep.
  - apply load_int_ext. intros i Hi. rewrite Hc, decide_False; [done|].
    unfold offsetof_x. pose proof (Hapart h' H i). lia.
  - apply load_int_ext. intros i Hi. rewrite Hc, decide_False; [done|].
    unfold offsetof_y. pose proof (Hapart h' H (4 + i)). lia.
  - apply load_int_undef. rewrite Hc, decide_True; [done|]. unfold offsetof_x. lia.
  - apply load_int_undef. rewrite Hc, decide_True; [done|]. unfold offsetof_y. lia.
Qed.

(** X6. In a well-formed heap [free] of a live handle always has a
    defined result, and it leaves every other live Point live, with its
    fields as they were. *)
Theorem free_frame m h :
  wf_mem m -> live_handle m h ->
  exists m', JNIPoint_free m h = Some m' /\
    forall h', live_handle m h' -> ptr_of_jlong h' <> ptr_of_jlong h ->
      live_handle m' h' /\
      JNIPoint_getX e m' h' = JNIPoint_getX e m h' /\
      JNIPoint_getY e m' h' = JNIPoint_getY e m h'.
Proof.
  intros Hwf Hlive. pose proof (live_nonnull m h Hwf Hlive) as Hp.
  destruct (free_live m _ _ Hlive) as [m' Hfree]. exists m'. split; [done|].
  apply free_Some in Hfree as (n & Hn & Hc & Hb); [|done].
  unfold live_handle in Hlive. rewrite Hlive in Hn. injection Hn as <-.
  intros h' Hlive' Hne.
  destruct (live_handles_apart m h h' Hwf Hlive Hlive') as [Hd|Hd]; [congruence| |];
    unfold sizeof_Point in *.
  - repeat split.
    + unfold live_handle. by rewrite Hb, lookup_delete_ne.
    + apply load_int_ext. intros i Hi. rewrite Hc, decide_False; [done|].
      unfold offsetof_x. lia.
    + apply load_int_ext. intros i Hi. rewrite Hc, decide_False; [done|].
      unfold offsetof_y. lia.
  - repeat split.
    + unfold live_handle. by rewrite Hb, lookup_delete_ne.
    + apply load_int_ext. intros i Hi. rewrite Hc, decide_False; [done|].
      unfold offsetof_x. lia.
    + apply load_int_ext. intros i Hi. rewrite Hc, decide_False; [done|].
      unfold offsetof_y. lia.
Qed.

Lemma store_int_inaccessible m a v : contents m !! a = None -> store_int e m a v = None.
Proof.
  intros Ha. unfold store_int.
  assert (exists b bs, encode_int e v = b :: bs) as (b & bs & ->)
    by (destruct e; simpl; eauto).
  simpl. unfold store_byte. by rewrite Ha.
Qed.

Lemma load_Point_inaccessible m a :
  contents m !! a = None -> load_Point e m a = None.
Proof.
  intros Ha. unfold load_Point, offsetof_x. rewrite Z.add_0_r.
  by rewrite (load_int_inaccessible e m a Ha).
Qed.

(** X7. Once a live handle has been given to [free], every further use
    of it is without a defined result: a second [free], [setX], [setY],
    and the handle form of the distance with it on either side. *)
Theorem use_after_free m h m' :
  wf_mem m -> live_handle m h -> JNIPoint_free m h = Some m' ->
  JNIPoint_free m' h = None /\
  (forall v, JNIPoint_setX e m' h v = None /\ JNIPoint_setY e m' h v = None) /\
  (forall h', JNIPoint_distance e m' h h' = None /\
              JNIPoint_distance e m' h' h = None).
Proof.
  intros Hwf Hlive Hfree. pose proof (live_nonnull m h Hwf Hlive) as Hp.
  apply free_Some in Hfree as (n & Hn & Hc & Hb); [|done].
  unfold live_handle in Hlive. rewrite Hlive in Hn. injection Hn as <-.
  unfold sizeof_Point in Hc.
  assert (forall i, 0 <= i < 8 -> contents m' !! (ptr_of_jlong h + i) = None) as Hgone.
  { intros i Hi. rewrite Hc, decide_True; [done|lia]. }
  assert (load_Point e m' (ptr_of_jlong h) = None) as Hload.
  { apply load_Point_inaccessible. rewrite <- (Z.add_0_r (ptr_of_jlong h)).
    apply Hgone. lia. }
  repeat split.
  - unfold Java_org_openjdk_bench_jdk_incubator_foreign_points_support_JNIPoint_free, free.
    destruct (Z.eqb_spec (ptr_of_jlong h) 0); [done|].
    by rewrite Hb, lookup_delete_eq.
  - apply store_int_inaccessible, Hgone. unfold offsetof_x. lia.
  - apply store_int_inaccessible, Hgone. unfold offsetof_y. lia.
  - unfold Java_org_openjdk_bench_jdk_incubator_foreign_points_support_JNIPoint_distance.
    by rewrite Hload.
  - unfold Java_org_openjdk_bench_jdk_incubator_foreign_points_support_JNIPoint_distance.
    rewrite Hload. by destruct (load_Point e m' (ptr_of_jlong h')).
Qed.

End HeapMore.

(** * How the accessors compose *)

Section Compose.

Variable e : endianness.

Implicit Types (m : mem) (h v : Z).

Lemma mem_eq m1 m2 :
  (forall a, contents m1 !! a = contents m2 !! a) -> blocks m1 = blocks m2 -> m1 = m2.
Proof.
  destruct m1 as [c1 b1], m2 as [c2 b2]. simpl. intros Hc ->. f_equal. by apply map_eq.
Qed.

Lemma store_bytes_lookup_in bs : forall m a m' i b,
  store_bytes m a bs = Some m' -> bs !! i = Some b ->
  contents m' !! (a + Z.of_nat i) = Some (Byte b).
Proof.
  induction bs as [| b0 bs IH]; intros m a m' i b; simpl; [done|].
  destruct (store_byte m a b0) as [m1|] eqn:E; simpl; [|done].
  intros H Hi. destruct i as [| i]; simpl in Hi.
  - injection Hi as <-. rewrite Z.add_0_r, (store_bytes_other _ _ _ _ a H) by lia.
    apply store_byte_Some in E as (_ & -> & _). apply lookup_insert_eq.
  - replace (a + Z.of_nat (S i)) with (a + 1 + Z.of_nat i) by lia. by apply (IH m1).
Qed.

Lemma store_bytes_accessible bs : forall m a m',
  store_bytes m a bs = Some m' -> accessible m a (Z.of_nat (length bs)).
Proof.
  induction bs as [| b bs IH]; intros m a m'; simpl.
  - intros _ i Hi. lia.
  - destruct (store_byte m a b) as [m1|] eqn:E; simpl; [|done].
    intros H i Hi. apply store_byte_Some in E as (Ha & Hc & _).
    destruct (decide (i = 0)) as [->|Hne]; [by rewrite Z.add_0_r|].
    pose proof (IH _ _ _ H (i - 1)) as Hacc.
    replace (a + 1 + (i - 1)) with (a + i) in Hacc by lia.
    rewrite Hc, lookup_insert_ne in Hacc by lia. apply Hacc. lia.
Qed.

Lemma store_int_Some_accessible m a v m' :
  store_int e m a v = Some m' -> accessible m a 4.
Proof.
  intros H. apply store_bytes_accessible in H. by rewrite encode_int_length in H.
Qed.

Lemma store_int_lookup_in m a v m' a' :
  store_int e m a v = Some m' -> a <= a' < a + 4 ->
  exists b, encode_int e v !! Z.to_nat (a' - a) = Some b /\
            contents m' !! a' = Some (Byte b).
Proof.
  intros H Ha'.
  destruct (lookup_lt_is_Some_2 (encode_int e v) (Z.to_nat (a' - a))) as [b Hb].
  { rewrite encode_int_length. lia. }
  exists b. split; [done|].
  replace a' with (a + Z.of_nat (Z.to_nat (a' - a))) at 1 by lia.
  exact (store_bytes_lookup_in (encode_int e v) m a m' _ b H Hb).
Qed.

Lemma store_int_other m a v m' a' :
  store_int e m a v = Some m' -> a' < a \/ a + 4 <= a' ->
  contents m' !! a' = contents m !! a'.
Proof.
  intros H Ha'. apply (store_bytes_other _ _ _ _ _ H). rewrite encode_int_length. lia.
Qed.

Lemma store_int_keeps_accessible m a v m' b n :
  store_int e m a v = Some m' -> accessible m b n -> accessible m' b n.
Proof.
  intros H Hacc i Hi. apply (store_bytes_accessible_iff _ _ _ _ _ H). by apply Hacc.
Qed.

Lemma store_int_accessible_before m a v m' b n :
  store_int e m a v = Some m' -> accessible m' b n -> accessible m b n.
Proof.
  intros H Hacc i Hi. apply (store_bytes_accessible_iff _ _ _ _ _ H). by apply Hacc.
Qed.

(** Two stores to ranges that do not overlap commute, failures included. *)
Lemma store_int_commute m a1 v1 a2 v2 :
  a1 + 4 <= a2 \/ a2 + 4 <= a1 ->
  (store_int e m a1 v1 ≫= fun m1 => store_int e m1 a2 v2) =
  (store_int e m a2 v2 ≫= fun m1 => store_int e m1 a1 v1).
Proof.
  intros Hd.
  destruct (store_int e m a1 v1) as [m1|] eqn:E1,
           (store_int e m a2 v2) as [m2|] eqn:E2; simpl; try done.
  - destruct (store_int_succeeds e m1 a2 v2) as [m12 E12].
    { by apply (store_int_keeps_accessible _ _ _ _ _ _ E1),
         (store_int_Some_accessible m a2 v2 m2). }
    destruct (store_int_succeeds e m2 a1 v1) as [m21 E21].
    { by apply (store_int_keeps_accessible _ _ _ _ _ _ E2),
         (store_int_Some_accessible m a1 v1 m1). }
    rewrite E12, E21. f_equal. apply mem_eq.
    + intros a.
      destruct (decide (a1 <= a < a1 + 4)) as [H1|H1];
        [|destruct (decide (a2 <= a < a2 + 4)) as [H2|H2]].
      * destruct (store_int_lookup_in _ _ _ _ a E1 H1) as (b & Hb & Hl1).
        destruct (store_int_lookup_in _ _ _ _ a E21 H1) as (b' & Hb' & Hl21).
        rewrite (store_int_other _ _ _ _ a E12), Hl1, Hl21 by lia. congruence.
      * destruct (store_int_lookup_in _ _ _ _ a E2 H2) as (b & Hb & Hl2).
        destruct (store_int_lookup_in _ _ _ _ a E12 H2) as (b' & Hb' & Hl12).
        rewrite (store_int_other _ _ _ _ a E21), Hl2, Hl12 by lia. congruence.
      * rewrite (store_int_other _ _ _ _ a E12), (store_int_other _ _ _ _ a E1),
          (store_int_other _ _ _ _ a E21), (store_int_other _ _ _ _ a E2) by lia.
        done.
    + rewrite (store_bytes_blocks _ _ _ _ E12), (store_bytes_blocks _ _ _ _ E1),
        (store_bytes_blocks _ _ _ _ E21), (store_bytes_blocks _ _ _ _ E2). done.
  - destruct (store_int e m1 a2 v2) as [m12|] eqn:E12; [exfalso|done].
    assert (is_Some (store_int e m a2 v2)) as [? ?]; [|congruence].
    by apply store_int_succeeds, (store_int_accessible_before _ _ _ _ _ _ E1),
      (store_int_Some_accessible m1 a2 v2 m12).
  - destruct (store_int e m2 a1 v1) as [m21|] eqn:E21; [exfalso|done].
    assert (is_Some (store_int e m a1 v1)) as [? ?]; [|congruence].
    by apply store_int_succeeds, (store_int_accessible_before _ _ _ _ _ _ E2),
      (store_int_Some_accessible m2 a1 v1 m21).
Qed.

(** A second store to the same place makes the first one forgotten. *)
Lemma store_int_overwrite m a v1 v2 :
  (store_int e m a v1 ≫= fun m1 => store_int e m1 a v2) = store_int e m a v2.
Proof.
  destruct (store_int e m a v1) as [m1|] eqn:E1; simpl.
  - destruct (store_int_succeeds e m1 a v2) as [m12 E12].
    { by apply (store_int_keeps_accessible _ _ _ _ _ _ E1),
         (store_int_Some_accessible m a v1 m1). }
    destruct (store_int_succeeds e m a v2) as [m2 E2].
    { by apply (store_int_Some_accessible m a v1 m1). }
    rewrite E12, E2. f_equal. apply mem_eq.
    + intros a'. destruct (decide (a <= a' < a + 4)) as [H1|H1].
      * destruct (store_int_lookup_in _ _ _ _ a' E12 H1) as (b & Hb & Hl12).
        destruct (store_int_lookup_in _ _ _ _ a' E2 H1) as (b' & Hb' & Hl2).
        rewrite Hl12, Hl2. congruence.
      * rewrite (store_int_other _ _ _ _ a' E12), (store_int_other _ _ _ _ a' E1),
          (store_int_other _ _ _ _ a' E2) by lia. done.
    + rewrite (store_bytes_blocks _ _ _ _ E12), (store_bytes_blocks _ _ _ _ E1),
        (store_bytes_blocks _ _ _ _ E2). done.
  - destruct (store_int e m a v2) as [m2|] eqn:E2; [exfalso|done].
    assert (is_Some (store_int e m a v1)) as [? ?]; [|congruence].
    by apply store_int_succeeds, (store_int_Some_accessible m a v2 m2).
Qed.

(** X8. [setX] and [setY] on the same handle commute: either order gives
    the same memory, and has no defined result in the same cases. *)
Theorem setX_setY_commute (m : mem) (h a b : Z) :
  (JNIPoint_setX e m h a ≫= fun m1 => JNIPoint_setY e m1 h b) =
  (JNIPoint_setY e m h b ≫= fun m1 => JNIPoint_setX e m1 h a).
Proof. apply store_int_commute. unfold offsetof_x, offsetof_y. lia. Qed.

(** X9. The last write wins: [setX] (or [setY]) twice through a handle
    leaves the memory that the second call alone leaves, and has no
    defined result in the same cases. *)
Theorem set_overwrite (m : mem) (h a b : Z) :
  (JNIPoint_setX e m h a ≫= fun m1 => JNIPoint_setX e m1 h b) = JNIPoint_setX e m h b /\
  (JNIPoint_setY e m h a ≫= fun m1 => JNIPoint_setY e m1 h b) = JNIPoint_setY e m h b.
Proof. split; apply store_int_overwrite. Qed.

End Compose.

(** * The forms of the distance on the heap *)

Section FormsMore.

Variable e : endianness.

Implicit Types (m : mem) (h v : Z).

Lemma load_bytes_byte_None n : forall m a i,
  0 <= i < Z.of_nat n -> load_byte m (a + i) = None -> load_bytes m a n = None.
Proof.
  induction n as [| n IH]; intros m a i Hi Hb; [lia|]. simpl.
  destruct (decide (i = 0)) as [->|Hne].
  - rewrite Z.add_0_r in Hb. by rewrite Hb.
  - rewrite (IH m (a + 1) (i - 1)); [by destruct (load_byte m a)|lia|].
    by replace (a + 1 + (i - 1)) with (a + i) by lia.
Qed.

Lemma load_Point_byte_None m a i :
  0 <= i < 8 -> load_byte m (a + i) = None -> load_Point e m a = None.
Proof.
  intros Hi Hb. unfold load_Point, load_int, offsetof_x, offsetof_y.
  destruct (decide (i < 4)) as [Hlt|Hge].
  - rewrite (load_bytes_byte_None 4 m (a + 0) i); [done|lia|].
    by rewrite Z.add_0_r.
  - rewrite (load_bytes_byte_None 4 m (a + 4) (i - 4)); [|lia|].
    + by destruct (load_bytes m (a + 0) 4).
    + by replace (a + 4 + (i - 4)) with (a + i) by lia.
Qed.

(** X10. In a well-formed heap with two distinct live handles, writing
    the four fields through [setX] and [setY] always has a defined result,
    after which the handle form and the by-pointer form return the distance
    of the two Points written. *)
Theorem set_then_distance m h1 h2 x1 y1 x2 y2 :
  wf_mem m -> live_handle m h1 -> live_handle m h2 ->
  ptr_of_jlong h1 <> ptr_of_jlong h2 ->
  CInt.in_range x1 -> CInt.in_range y1 -> CInt.in_range x2 -> CInt.in_range y2 ->
  exists m',
    (ma ← JNIPoint_setX e m h1 x1; mb ← JNIPoint_setY e ma h1 y1;
     mc ← JNIPoint_setX e mb h2 x2; JNIPoint_setY e mc h2 y2) = Some m' /\
    JNIPoint_distance e m' h1 h2
    = Some (distance {| x := x1; y := y1 |} {| x := x2; y := y2 |}) /\
    distance_ptrs e m' (ptr_of_jlong h1) (ptr_of_jlong h2)
    = Some (distance {| x := x1; y := y1 |} {| x := x2; y := y2 |}).
Proof.
  intros Hwf Hl1 Hl2 Hne Hx1 Hy1 Hx2 Hy2.
  pose proof (live_handle_accessible m h1 Hwf Hl1) as Ha1.
  pose proof (live_handle_accessible m h2 Hwf Hl2) as Ha2.
  pose proof (live_handles_apart m h1 h2 Hwf Hl1 Hl2 Hne) as Hapart.
  unfold sizeof_Point in Hapart.
  destruct (setX_succeeds e m h1 x1 Ha1) as [ma Ea].
  destruct (setY_succeeds e ma h1 y1) as [mb Eb].
  { by apply (setX_accessible e m h1 x1). }
  destruct (setX_succeeds e mb h2 x2) as [mc Ec].
  { by apply (setY_accessible e ma h1 y1), (setX_accessible e m h1 x1). }
  destruct (setY_succeeds e mc h2 y2) as [md Ed].
  { by apply (setX_accessible e mb h2 x2), (setY_accessible e ma h1 y1),
       (setX_accessible e m h1 x1). }
  exists md. rewrite Ea. simpl. rewrite Eb. simpl. rewrite Ec. simpl. split; [done|].
  assert (load_Point e md (ptr_of_jlong h1) = Some {| x := x1; y := y1 |}) as Hp1.
  { unfold load_Point.
    assert (load_int e md (ptr_of_jlong h1 + offsetof_x) = Some x1) as ->.
    { rewrite (setY_load_int_other e _ _ _ _ _ Ed) by (unfold offsetof_x, offsetof_y; lia).
      rewrite (setX_load_int_other e _ _ _ _ _ Ec) by (unfold offsetof_x; lia).
      rewrite (setY_load_int_other e _ _ _ _ _ Eb) by (unfold offsetof_x, offsetof_y; lia).
      by apply (getX_setX e m). }
    assert (load_int e md (ptr_of_jlong h1 + offsetof_y) = Some y1) as ->.
    { rewrite (setY_load_int_other e _ _ _ _ _ Ed) by (unfold offsetof_y; lia).
      rewrite (setX_load_int_other e _ _ _ _ _ Ec) by (unfold offsetof_x, offsetof_y; lia).
      by apply (getY_setY e ma). }
    done. }
  assert (load_Point e md (ptr_of_jlong h2) = Some {| x := x2; y := y2 |}) as Hp2.
  { unfold load_Point.
    assert (load_int e md (ptr_of_jlong h2 + offsetof_x) = Some x2) as ->.
    { rewrite (setY_load_int_other e _ _ _ _ _ Ed) by (unfold offsetof_x, offsetof_y; lia).
      by apply (getX_setX e mb). }
    assert (load_int e md (ptr_of_jlong h2 + offsetof_y) = Some y2) as ->
      by (by apply (getY_setY e mc)).
    done. }
  unfold Java_org_openjdk_bench_jdk_incubator_foreign_points_support_JNIPoint_distance,
    distance_ptrs.
  by rewrite Hp1, Hp2.
Qed.

(** X11. When one of the 8 bytes behind a pointer is inaccessible or was
    never written (a dangling or null handle, a Point just allocated, a
    buffer shorter than a Point), every form of the distance that reads
    through it is without a defined result, on whichever side the pointer
    is passed. *)
Theorem distance_forms_undefined m a i :
  0 <= i < 8 -> load_byte m (a + i) = None ->
  (forall a', distance_ptrs e m a a' = None /\ distance_ptrs e m a' a = None) /\
  (forall h h', ptr_of_jlong h = a ->
     JNIPoint_distance e m h h' = None /\ JNIPoint_distance e m h' h = None) /\
  (forall buf buf', GetDirectBufferAddress buf = a ->
     BBPoint_distance e m buf buf' = None /\ BBPoint_distance e m buf' buf = None).
Proof.
  intros Hi Hb. pose proof (load_Point_byte_None m a i Hi Hb) as Hload.
  assert (forall a', distance_ptrs e m a a' = None /\ distance_ptrs e m a' a = None) as Hptrs.
  { intros a'. unfold distance_ptrs. rewrite Hload. split; [done|].
    by destruct (load_Point e m a'). }
  split; [done|]. split.
  - intros h h' <-. apply Hptrs.
  - intros buf buf' <-. apply Hptrs.
Qed.

(** X12. The three forms that read their Points from memory are symmetric
    as well, the cases without a defined result included. *)
Theorem distance_forms_symmetric m :
  (forall a1 a2, distance_ptrs e m a1 a2 = distance_ptrs e m a2 a1) /\
  (forall h1 h2, JNIPoint_distance e m h1 h2 = JNIPoint_distance e m h2 h1) /\
  (forall b1 b2, BBPoint_distance e m b1 b2 = BBPoint_distance e m b2 b1).
Proof.
  assert (forall a1 a2, distance_ptrs e m a1 a2 = distance_ptrs e m a2 a1) as Hptrs.
  { intros a1 a2. unfold distance_ptrs.
    destruct (load_Point e m a1) as [v1|], (load_Point e m a2) as [v2|]; simpl; try done.
    by rewrite !distance_unfold, distance_operand_sym. }
  split; [done|]. split; intros; apply Hptrs.
Qed.

(** X13. The handle that [allocate] returns is the address [malloc]
    returned, as a [jlong]: it fits 64 signed bits, the cast of the
    accessors gives the address back, and it is null exactly when the
    allocation failed, in which case the memory is as it was. *)
Theorem allocate_handle_is_address m choice h m0 :
  JNIPoint_allocate m choice = Some (h, m0) ->
  jlong_in_range h /\ ptr_of_jlong h = choice /\ jlong_of_ptr choice = h /\
  (h = 0 <-> choice = 0) /\ (h = 0 -> m0 = m).
Proof.
  unfold Java_org_openjdk_bench_jdk_incubator_foreign_points_support_JNIPoint_allocate.
  destruct (malloc m sizeof_Point choice) as [[p m1]|] eqn:E; simpl; [|done].
  intros [= <- <-].
  destruct (decide (p = 0)) as [->|Hp].
  - pose proof (malloc_null _ _ _ _ E) as ->.
    assert (choice = 0) as ->.
    { unfold malloc in E. destruct (Z.eqb_spec choice 0); [done|].
      destruct (_ && _); [|done]. by injection E as <-. }
    repeat split; try done.
  - apply malloc_nonnull in E as (<- & Hpos & Hmax & _); [|done].
    unfold sizeof_Point in Hmax.
    assert (0 <= p < 2 ^ 64) as Hrange by lia.
    repeat split.
    + apply jlong_of_ptr_in_range.
    + apply jlong_of_ptr_in_range.
    + by apply ptr_of_jlong_of_ptr.
    + intros H0. by apply jlong_of_ptr_null.
    + intros ->. done.
    + intros H0. exfalso. by apply Hp, jlong_of_ptr_null.
Qed.

End FormsMore.

(** * The further properties on the run *)

(** One allocation on the empty heap. *)
Lemma reachable_wf_witness :
  reachable LittleEndian
    (mem_after empty_mem (snd <$> JNIPoint_allocate empty_mem 4096)) /\
  wf_mem (mem_after empty_mem (snd <$> JNIPoint_allocate empty_mem 4096)).
Proof.
  assert (reachable LittleEndian
            (mem_after empty_mem (snd <$> JNIPoint_allocate empty_mem 4096))) as Hr.
  { apply rtc_once. apply (step_allocate LittleEndian empty_mem 4096 4096).
    vm_compute. reflexivity. }
  split; [exact Hr|].
  exact (proj1 (reachable_wf LittleEndian _ Hr)).
Defined.

(** A third Point allocated at address 12288 in the heap of the run. *)
Lemma allocate_fresh_witness :
  wf_mem (scenario_mem LittleEndian) /\ 12288 <> 0 /\
  exists m0,
    JNIPoint_allocate (scenario_mem LittleEndian) 12288 = Some (12288, m0) /\
    ~ live_handle (scenario_mem LittleEndian) 12288 /\
    live_handle m0 4096 /\
    JNIPoint_getX LittleEndian m0 4096 = JNIPoint_getX LittleEndian (scenario_mem LittleEndian) 4096 /\
    JNIPoint_getX LittleEndian m0 12288 = None.
Proof.
  assert (wf_mem (scenario_mem LittleEndian)) as Hwf
    by (apply wf_memb_sound; vm_compute; reflexivity).
  assert (12288 <> 0) as Hh by lia.
  repeat (split; [assumption|]).
  pose (m0 := mem_after (scenario_mem LittleEndian)
                (snd <$> JNIPoint_allocate (scenario_mem LittleEndian) 12288)).
  assert (JNIPoint_allocate (scenario_mem LittleEndian) 12288 = Some (12288, m0)) as Ha
    by (vm_compute; reflexivity).
  assert (live_handle (scenario_mem LittleEndian) 4096) as Hl by by_computation.
  destruct (allocate_fresh LittleEndian (scenario_mem LittleEndian) 12288 12288 m0
              Hwf Ha Hh) as (Hnew & Hold & Hx & _).
  destruct (Hold 4096 Hl) as (_ & Hl' & Hx' & _).
  exists m0. repeat split; assumption.
Defined.

(** Freeing the first Point of the run. *)
Lemma free_frame_witness :
  wf_mem (scenario_mem LittleEndian) /\ live_handle (scenario_mem LittleEndian) 4096 /\
  exists m',
    JNIPoint_free (scenario_mem LittleEndian) 4096 = Some m' /\
    live_handle m' 8192 /\
    JNIPoint_getX LittleEndian m' 8192 = JNIPoint_getX LittleEndian (scenario_mem LittleEndian) 8192 /\
    JNIPoint_getY LittleEndian m' 8192 = JNIPoint_getY LittleEndian (scenario_mem LittleEndian) 8192.
Proof.
  assert (wf_mem (scenario_mem LittleEndian)) as Hwf
    by (apply wf_memb_sound; vm_compute; reflexivity).
  assert (live_handle (scenario_mem LittleEndian) 4096) as Hl1 by by_computation.
  assert (live_handle (scenario_mem LittleEndian) 8192) as Hl2 by by_computation.
  repeat (split; [assumption|]).
  destruct (free_frame LittleEndian (scenario_mem LittleEndian) 4096 Hwf Hl1)
    as (m' & Hfree & Hother).
  assert (ptr_of_jlong 8192 <> ptr_of_jlong 4096) as Hne by by_computation.
  destruct (Hother 8192 Hl2 Hne) as (Hl' & Hx & Hy).
  exists m'. repeat split; assumption.
Defined.

(** The first Point of the run after its release. *)
Lemma use_after_free_witness :
  wf_mem (scenario_mem LittleEndian) /\ live_handle (scenario_mem LittleEndian) 4096 /\
  exists m',
    JNIPoint_free (scenario_mem LittleEndian) 4096 = Some m' /\
    JNIPoint_free m' 4096 = None /\
    JNIPoint_setX LittleEndian m' 4096 7 = None /\
    JNIPoint_distance LittleEndian m' 8192 4096 = None.
Proof.
  assert (wf_mem (scenario_mem LittleEndian)) as Hwf
    by (apply wf_memb_sound; vm_compute; reflexivity).
  assert (live_handle (scenario_mem LittleEndian) 4096) as Hl1 by by_computation.
  repeat (split; [assumption|]).
  pose (m' := mem_after (scenario_mem LittleEndian)
                (JNIPoint_free (scenario_mem LittleEndian) 4096)).
  assert (JNIPoint_free (scenario_mem LittleEndian) 4096 = Some m') as Hfree
    by (vm_compute; reflexivity).
  destruct (use_after_free LittleEndian (scenario_mem LittleEndian) 4096 m'
              Hwf Hl1 Hfree) as (Hf & Hset & Hdist).
  exists m'. split; [exact Hfree|]. split; [exact Hf|].
  split; [exact (proj1 (Hset 7))|exact (proj2 (Hdist 8192))].
Defined.

(** The two Points of the run moved to (0,0) and (3,4). *)
Lemma set_then_distance_witness :
  wf_mem (scenario_mem BigEndian) /\
  live_handle (scenario_mem BigEndian) 4096 /\ live_handle (scenario_mem BigEndian) 8192 /\
  ptr_of_jlong 4096 <> ptr_of_jlong 8192 /\
  CInt.in_range 0 /\ CInt.in_range 3 /\ CInt.in_range 4 /\
  exists m',
    (ma ← JNIPoint_setX BigEndian (scenario_mem BigEndian) 4096 0;
     mb ← JNIPoint_setY BigEndian ma 4096 0;
     mc ← JNIPoint_setX BigEndian mb 8192 3; JNIPoint_setY BigEndian mc 8192 4) = Some m' /\
    JNIPoint_distance BigEndian m' 4096 8192 = Some CDouble.five.
Proof.
  assert (wf_mem (scenario_mem BigEndian)) as Hwf
    by (apply wf_memb_sound; vm_compute; reflexivity).
  assert (live_handle (scenario_mem BigEndian) 4096) as Hl1 by by_computation.
  assert (live_handle (scenario_mem BigEndian) 8192) as Hl2 by by_computation.
  assert (ptr_of_jlong 4096 <> ptr_of_jlong 8192) as Hne by by_computation.
  assert (CInt.in_range 0) as H0 by by_computation.
  assert (CInt.in_range 3) as H3 by by_computation.
  assert (CInt.in_range 4) as H4 by by_computation.
  repeat (split; [assumption|]).
  destruct (set_then_distance BigEndian (scenario_mem BigEndian) 4096 8192 0 0 3 4
              Hwf Hl1 Hl2 Hne H0 H0 H3 H4) as (m' & Hrun & Hd & _).
  exists m'. split; [exact Hrun|exact Hd].
Defined.

(** The second buffer of the run, 10 bytes long, read from its fifth
    byte on: 6 bytes are left, the seventh is outside the buffer. *)
Lemma distance_forms_undefined_witness :
  0 <= 6 < 8 /\ load_byte (scenario_mem LittleEndian) (516 + 6) = None /\
  BBPoint_distance LittleEndian (scenario_mem LittleEndian)
    (DirectByteBuffer 516 6) scenario_buffer1 = None /\
  BBPoint_distance LittleEndian (scenario_mem LittleEndian)
    scenario_buffer1 (DirectByteBuffer 516 6) = None.
Proof.
  assert (0 <= 6 < 8) as Hi by lia.
  assert (load_byte (scenario_mem LittleEndian) (516 + 6) = None) as Hb
    by (vm_compute; reflexivity).
  repeat (split; [assumption|]).
  destruct (distance_forms_undefined LittleEndian (scenario_mem LittleEndian) 516 6 Hi Hb)
    as (_ & _ & Hbuf).
  exact (Hbuf (DirectByteBuffer 516 6) scenario_buffer1 eq_refl).
Defined.

(** An allocation at the top of the address space: the handle is negative.
    *)
Lemma allocate_handle_is_address_witness :
  exists m0,
    JNIPoint_allocate empty_mem (2 ^ 64 - 8) = Some (-8, m0) /\
    jlong_in_range (-8) /\ ptr_of_jlong (-8) = 2 ^ 64 - 8.
Proof.
  pose (m0 := mem_after empty_mem (snd <$> JNIPoint_allocate empty_mem (2 ^ 64 - 8))).
  assert (JNIPoint_allocate empty_mem (2 ^ 64 - 8) = Some (-8, m0)) as Ha
    by (vm_compute; reflexivity).
  destruct (allocate_handle_is_address empty_mem (2 ^ 64 - 8) (-8) m0 Ha)
    as (Hr & Hp & _).
  exists m0. repeat split; try assumption; apply Hr.
Defined.
